(** * aiutils: bounded string and numeric-text primitives

    A shallow embedding of [aiutils.c] and the properties of its contract
    surface: bounded copies, fixed-width rendering, the decimal and the
    hexadecimal parser, case-insensitive comparison and the line reader.

    Conventions of the embedding.
    - A [char] is a [Z]; ASCII codes are written as numbers (['0'] is 48).
    - The caller's writable storage is a [buffer]: its bytes together with
      the trace of the offsets written so far.  A store outside the bytes
      or through the null pointer does not happen silently: it ends the
      run with [OutOfBounds] or [NullDeref].
    - A read-only C string is the list of bytes from the pointer on; the
      terminator is the first zero byte, and the end of the list stands
      for a terminator as well.
    - [size_t] and the fixed-width integers are [Z] with the wrap-around
      written out where the code does arithmetic on them; positions inside
      an object are [nat] offsets. *)

From Stdlib Require Import ZArith List Lia Bool.
From stdpp Require Import base tactics list.
Import ListNotations.

Local Open Scope Z_scope.

(** ** Machine integers *)

Module Int.

Definition size_max : Z := 2 ^ 64.

(** [--x] and [x - 1] on a [size_t]. *)
Definition size_dec (x : Z) : Z := (x - 1) mod size_max.

(** Conversion to a two's complement integer of [w] bits. *)
Definition wrap (w : Z) (x : Z) : Z :=
  (x + 2 ^ (w - 1)) mod 2 ^ w - 2 ^ (w - 1).

(** The cast [(int)x]. *)
Definition to_int (x : Z) : Z := wrap 32 x.

Definition llong_max : Z := 2 ^ 63 - 1.
Definition llong_min : Z := - 2 ^ 63.

(** [int64_t] arithmetic as the machine does it. *)
Definition shl64 (x k : Z) : Z := wrap 64 (Z.shiftl x k).
Definition neg64 (x : Z) : Z := wrap 64 (- x).

End Int.

(** ** Storage *)

Inductive ptr : Type :=
| NULL
| Ptr (off : nat).

Record buffer : Type := Buffer {
  bytes : list Z;
  written : list nat
}.

Inductive outcome (A : Type) : Type :=
| Done (a : A)
| NullDeref
| OutOfBounds.

Arguments Done {A} a.
Arguments NullDeref {A}.
Arguments OutOfBounds {A}.

Definition bind {A B : Type} (x : outcome A) (k : A -> outcome B) : outcome B :=
  match x with
  | Done a => k a
  | NullDeref => NullDeref
  | OutOfBounds => OutOfBounds
  end.

Notation "x <- e ;; k" := (bind e (fun x => k))
  (at level 100, e at next level, right associativity).

(** [p[i] = v] *)
Definition store (p : ptr) (i : nat) (v : Z) (m : buffer) : outcome buffer :=
  match p with
  | NULL => NullDeref
  | Ptr b =>
      if (b + i <? length (bytes m))%nat
      then Done (Buffer (<[(b + i)%nat := v]> (bytes m)) ((b + i)%nat :: written m))
      else OutOfBounds
  end.

(** [p[i]] *)
Definition load (p : ptr) (i : nat) (m : buffer) : outcome Z :=
  match p with
  | NULL => NullDeref
  | Ptr b =>
      match bytes m !! (b + i)%nat with
      | Some v => Done v
      | None => OutOfBounds
      end
  end.

Arguments store : simpl never.
Arguments load : simpl never.
Arguments bind {A B} !x k /.

(** [*s], [s + 1] and [s + k] on a read-only C string. *)
Definition peek (s : list Z) : Z := hd 0 s.
Definition advance (k : nat) (s : list Z) : list Z := drop k s.

(** The bytes of the string at [s], without the terminator. *)
Fixpoint cstring (s : list Z) : list Z :=
  match s with
  | [] => []
  | c :: s' => if c =? 0 then [] else c :: cstring s'
  end.

(** The string stored in a buffer at offset [b]. *)
Definition string_at (b : nat) (m : buffer) : list Z := cstring (drop b (bytes m)).

(** ** The C library, as far as the code calls it

    These follow the C standard (and glibc where the standard leaves a
    choice); they are not code of the repository. *)

Module Libc.

Definition strlen (s : list Z) : Z := Z.of_nat (length (cstring s)).

(** The [n] bytes [strncpy] writes: the string, then zero padding. *)
Fixpoint strncpy_bytes (src : list Z) (n : nat) {struct n} : list Z :=
  match n with
  | O => []
  | S n' =>
      match src with
      | [] => replicate n 0
      | c :: src' => if c =? 0 then replicate n 0 else c :: strncpy_bytes src' n'
      end
  end.

Fixpoint store_bytes (p : ptr) (i : nat) (l : list Z) (m : buffer) : outcome buffer :=
  match l with
  | [] => Done m
  | c :: l' => m' <- store p i c m ;; store_bytes p (S i) l' m'
  end.

Definition strncpy (dest : ptr) (src : list Z) (n : Z) (m : buffer) : outcome buffer :=
  store_bytes dest 0 (strncpy_bytes src (Z.to_nat n)) m.

Definition isspace (c : Z) : bool := ((9 <=? c) && (c <=? 13)) || (c =? 32).
Definition isdigit (c : Z) : bool := (48 <=? c) && (c <=? 57).
Definition tolower (c : Z) : Z := if (65 <=? c) && (c <=? 90) then c + 32 else c.

Definition EINVAL : Z := 22.
Definition ERANGE : Z := 34.

(** [strtoll(nptr, &eptr, 10)]: white space is skipped, then an optional
    sign, then the longest run of decimal digits.  The result is the
    value, the offset [eptr - nptr] and [errno].  Without a digit nothing
    is converted: the value is 0 and [eptr] is [nptr].  A value outside
    [long long] is clamped and reported as [ERANGE]. *)
Fixpoint span_space (s : list Z) : nat :=
  match s with
  | c :: s' => if isspace c then S (span_space s') else O
  | [] => O
  end.

Definition span_sign (s : list Z) : bool * nat :=
  match s with
  | c :: _ => if c =? 45 then (true, 1%nat) else if c =? 43 then (false, 1%nat) else (false, O)
  | [] => (false, O)
  end.

Fixpoint span_digits (s : list Z) (acc : Z) : Z * nat :=
  match s with
  | c :: s' =>
      if isdigit c
      then let '(v, k) := span_digits s' (acc * 10 + (c - 48)) in (v, S k)
      else (acc, O)
  | [] => (acc, O)
  end.

Definition strtoll (nptr : list Z) : Z * nat * Z :=
  let ws := span_space nptr in
  let '(neg, sg) := span_sign (drop ws nptr) in
  let '(v, k) := span_digits (drop (ws + sg) nptr) 0 in
  match k with
  | O => (0, O, 0)
  | S _ =>
      let r := if neg then - v else v in
      let e := (ws + sg + k)%nat in
      if Int.llong_max <? r then (Int.llong_max, e, ERANGE)
      else if r <? Int.llong_min then (Int.llong_min, e, ERANGE)
      else (r, e, 0)
  end.

(** [strcspn] and [strlen] on a string that lives in the caller's
    storage: running off the object is a fault, not a terminator. *)
Fixpoint scan_until (stop : Z -> bool) (l : list Z) : option nat :=
  match l with
  | [] => None
  | c :: l' => if stop c then Some O else S <$> scan_until stop l'
  end.

Definition scan_buffer (stop : Z -> bool) (p : ptr) (m : buffer) : outcome nat :=
  match p with
  | NULL => NullDeref
  | Ptr b =>
      match scan_until stop (drop b (bytes m)) with
      | Some k => Done k
      | None => OutOfBounds
      end
  end.

Definition strcspn (p : ptr) (reject : list Z) (m : buffer) : outcome nat :=
  scan_buffer (fun c => (c =? 0) || existsb (Z.eqb c) reject) p m.

Definition strlen_at (p : ptr) (m : buffer) : outcome nat :=
  scan_buffer (fun c => c =? 0) p m.

(** A stream is the list of the bytes not read yet; the empty list is
    the end of the stream.  The reading loop of [fgets]: at most [room]
    bytes, stopping after a line feed or at the end of the stream. *)
Fixpoint fgets_loop (buf : ptr) (i room : nat) (stream : list Z) (m : buffer)
  {struct room} : outcome (nat * list Z * buffer) :=
  match room with
  | O => Done (i, stream, m)
  | S room' =>
      match stream with
      | [] => Done (i, stream, m)
      | c :: rest =>
          m' <- store buf i c m ;;
          if c =? 10 then Done (S i, rest, m')
          else fgets_loop buf (S i) room' rest m'
      end
  end.

(** [fgets(buf, n, stream)]: [None] is the null result (nothing could
    be read, the buffer is left as it was). *)
Definition fgets (buf : ptr) (n : Z) (stream : list Z) (m : buffer)
  : outcome (option (list Z * buffer)) :=
  if n <=? 0 then Done None
  else
    r <- fgets_loop buf 0 (Z.to_nat (n - 1)) stream m ;;
    let '(i, rest, m') := r in
    match i, Z.to_nat (n - 1) with
    | O, S _ => Done None
    | _, _ => m'' <- store buf i 0 m' ;; Done (Some (rest, m''))
    end.

(** The casts [(unsigned char)c] and [(char)x]; [char] is taken as the
    signed byte of the usual targets. *)
Definition to_uchar (c : Z) : Z := c mod 256.
Definition to_char (x : Z) : Z := Int.wrap 8 x.

Definition islower (c : Z) : bool := (97 <=? c) && (c <=? 122).
Definition isupper (c : Z) : bool := (65 <=? c) && (c <=? 90).
Definition toupper (c : Z) : Z := if islower c then c - 32 else c.

(** [memmove(p + di, p + si, n)] inside one object: the [n] source bytes
    are read first, then stored, so the regions may overlap. *)
Definition memmove (p : ptr) (di si n : nat) (m : buffer) : outcome buffer :=
  match p with
  | NULL => NullDeref
  | Ptr b =>
      if (b + si + n <=? length (bytes m))%nat
      then store_bytes p di (take n (drop (b + si) (bytes m))) m
      else OutOfBounds
  end.

(** [strstr(h, n)]: the offset of the first place in the string [h] where
    the string [n] starts, if there is one. *)
Fixpoint prefix_at (n h : list Z) : bool :=
  match n with
  | [] => true
  | c :: n' =>
      match h with
      | [] => false
      | x :: h' => (x =? c) && prefix_at n' h'
      end
  end.

Fixpoint strstr_from (needle : list Z) (h : list Z) : option nat :=
  if prefix_at needle h then Some O
  else
    match h with
    | [] => None
    | _ :: h' => S <$> strstr_from needle h'
    end.

Definition strstr (h n : list Z) : option nat := strstr_from (cstring n) (cstring h).

End Libc.

(** ** The functions of [aiutils.c] *)

Module Aiutils.
Import Int Libc.

(** The statement [while ( *s && --dsize) *d++ = *s++;] of [strzcpy] and
    [strzcat].  [i] is the offset of [d] from where it started; the
    result is the final offset. *)
Fixpoint copy_loop (d : ptr) (i : nat) (s : list Z) (dsize : Z) (m : buffer)
  : outcome (nat * buffer) :=
  match s with
  | [] => Done (i, m)
  | c :: s' =>
      if c =? 0 then Done (i, m)
      else
        let dsize' := size_dec dsize in
        if dsize' =? 0 then Done (i, m)
        else m' <- store d i c m ;; copy_loop d (S i) s' dsize' m'
  end.

Definition strzcpy (d : ptr) (s : list Z) (dsize : Z) (m : buffer) : outcome buffer :=
  if dsize <=? 0 then Done m
  else
    r <- copy_loop d 0 s dsize m ;;
    store d (fst r) 0 (snd r).

(** The statement [while ( *d) dsize--, d++;] of [strzcat], over the
    bytes from [d] on. *)
Fixpoint strzcat_scan (l : list Z) (i : nat) (dsize : Z) : outcome (nat * Z) :=
  match l with
  | [] => OutOfBounds
  | c :: l' => if c =? 0 then Done (i, dsize) else strzcat_scan l' (S i) (size_dec dsize)
  end.

Definition strzcat (d : ptr) (s : list Z) (dsize : Z) (m : buffer) : outcome buffer :=
  if dsize <=? 1 then Done m
  else
    match d with
    | NULL => NullDeref
    | Ptr b =>
        e <- strzcat_scan (drop b (bytes m)) 0 dsize ;;
        r <- copy_loop d (fst e) s (snd e) m ;;
        store d (fst r) 0 (snd r)
    end.

(** [strcmpii]: the loop runs while the folded bytes agree, so it ends
    at the latest at the terminator of [s1]. *)
Fixpoint strcmpii (s1 s2 : list Z) : Z :=
  if tolower (peek s1) =? tolower (peek s2)
  then
    match s1 with
    | [] => 0
    | c :: s1' => if c =? 0 then 0 else strcmpii s1' (advance 1 s2)
    end
  else tolower (peek s1) - tolower (peek s2).

(** [for (p = s + k; p > s;) *--p = c;] and [while (p > s) *--p = c;] *)
Fixpoint fill_down (s : ptr) (p : nat) (c : Z) (m : buffer) : outcome buffer :=
  match p with
  | O => Done m
  | S p' => m' <- store s p' c m ;; fill_down s p' c m'
  end.

(** The [do ... while (n)] loop of [fitoa]; [p] is the offset of the
    pointer [p] from [s], which every round lowers by one. *)
Fixpoint fitoa_loop (s : ptr) (wid : nat) (n : Z) (p : nat) (m : buffer) : outcome buffer :=
  match p with
  | O => fill_down s wid 42 m
  | S p' =>
      m' <- store s p' (48 + n mod 10) m ;;
      let n' := n / 10 in
      if n' =? 0 then fill_down s p' 32 m'
      else fitoa_loop s wid n' p' m'
  end.

Definition fitoa (n : Z) (wid : nat) (s : ptr) (m : buffer) : outcome buffer :=
  m' <- store s wid 0 m ;;
  fitoa_loop s wid n wid m'.

(** [for (p = b; *p == ' '; p++);] over the local array. *)
Fixpoint skip_spaces (l : list Z) : outcome (list Z) :=
  match l with
  | [] => OutOfBounds
  | c :: l' => if c =? 32 then skip_spaces l' else Done l
  end.

(** Steps 1 and 2 of [numzcat]: the digits of [n], found in the local
    array [b] (12 bytes, of any content on entry). *)
Definition numzcat_digits (b : list Z) (n : Z) : outcome (list Z) :=
  bl <- fitoa n 11 (Ptr 0) (Buffer b []) ;;
  skip_spaces (bytes bl).

Definition numzcat (b : list Z) (d : ptr) (n : Z) (dsize : Z) (m : buffer) : outcome buffer :=
  p <- numzcat_digits b n ;;
  strzcat d p dsize m.

(** [decatoi]: the result is the return code and the content of
    [*value] afterwards.  [str2conv] holds the [length] bytes [strncpy]
    wrote and the terminator stored after them. *)
Definition decatoi (string : list Z) (length : Z) (value : Z) : Z * Z :=
  if 20 <? length then (0, value)
  else
    let str2conv := strncpy_bytes string (Z.to_nat (to_int length)) ++ [0] in
    let '(result, eptr, errno) := strtoll str2conv in
    if (errno =? EINVAL) || (errno =? ERANGE) then (0, value)
    else if negb (to_int (Z.of_nat eptr) =? to_int length) then (0, value)
    else if negb (nth eptr str2conv 0 =? 0) then (0, value)
    else (1, result).

(** [hexatoi]: the loop over [string[0 .. length)]; the state is
    [*value], [sign] and [retcode].  The result is the return code and
    the content of [*value] afterwards; what [*value] held on entry is
    overwritten by 0 before the loop. *)
Fixpoint hexatoi_loop (s : list Z) (value sign retcode : Z) : Z * Z :=
  match s with
  | [] => (retcode, if sign =? -1 then neg64 value else value)
  | c :: s' =>
      if (48 <=? c) && (c <=? 57)
      then hexatoi_loop s' (Z.lor (shl64 value 4) (c - 48)) sign retcode
      else if (65 <=? c) && (c <=? 70)
      then hexatoi_loop s' (Z.lor (shl64 value 4) (c + 10 - 65)) sign retcode
      else if (97 <=? c) && (c <=? 102)
      then hexatoi_loop s' (Z.lor (shl64 value 4) (c + 10 - 97)) sign retcode
      else if c =? 32
      then hexatoi_loop s' value sign (Z.lor retcode 4)
      else if c =? 45
      then hexatoi_loop s' value (-1) (Z.lor retcode 4)
      else if c =? 43
      then hexatoi_loop s' value 1 (Z.lor retcode 4)
      else (1, value)
  end.

Definition hexatoi (string : list Z) (length : Z) (value : Z) : Z * Z :=
  hexatoi_loop (take (Z.to_nat length) string) 0 0 0.

(** The [for] loop of [replace_char_inplace], [todo] rounds from index
    [i] on. *)
Fixpoint replace_char_loop (str : ptr) (todo i last_index : nat)
    (ch newch skipends : Z) (m : buffer) : outcome buffer :=
  match todo with
  | O => Done m
  | S todo' =>
      c <- load str i m ;;
      m' <- (if (c =? ch) &&
                negb (negb (skipends =? 0) && ((i =? 0)%nat || (i =? last_index)%nat))
             then store str i newch m
             else Done m) ;;
      replace_char_loop str todo' (S i) last_index ch newch skipends m'
  end.

Definition replace_char_inplace (str : ptr) (ch newch skipends : Z) (m : buffer)
  : outcome buffer :=
  match str with
  | NULL => Done m
  | Ptr _ =>
      len <- strlen_at str m ;;
      match len with
      | O => Done m
      | S last_index => replace_char_loop str len 0 last_index ch newch skipends m
      end
  end.

(** A source pointer that may be null is an [option]; [is_null] and
    [no_src] are the tests [dest == NULL] and [src == NULL]. *)
Definition is_null (p : ptr) : bool :=
  match p with NULL => true | Ptr _ => false end.

Definition no_src (src : option (list Z)) : bool :=
  match src with None => true | Some _ => false end.

Definition src_string (src : option (list Z)) : list Z :=
  match src with None => [] | Some s => s end.

Definition replace_char_safe_copy (dest : ptr) (src : option (list Z)) (dest_size : Z)
    (ch newch skipends : Z) (m : buffer) : outcome buffer :=
  if is_null dest || no_src src || (dest_size =? 0)
  then
    if 0 <? dest_size then store dest 0 0 m else Done m
  else
    m' <- strzcpy dest (src_string src) dest_size m ;;
    replace_char_inplace dest ch newch skipends m'.

Definition substring_safe_copy (dest : ptr) (src : option (list Z)) (dest_size : Z)
    (position length : Z) (m : buffer) : outcome buffer :=
  if is_null dest || no_src src || (dest_size =? 0)
  then
    if negb (is_null dest) && (0 <? dest_size) then store dest 0 0 m else Done m
  else
    let src_len := strlen (src_string src) in
    if src_len <=? position then store dest 0 0 m
    else
      let chars_available := src_len - position in
      let copy_len := if length <? chars_available then length else chars_available in
      let max_dest_copy := size_dec dest_size in
      let copy_len := if max_dest_copy <? copy_len then max_dest_copy else copy_len in
      m' <- strncpy dest (advance (Z.to_nat position) (src_string src)) copy_len m ;;
      store dest (Z.to_nat copy_len) 0 m'.

(** The loop of [fgetc] calls that [safe_gets] means to discard the rest
    of a line with: it reads up to and including the next line feed, or
    to the end of the stream. *)
Fixpoint drain (stream : list Z) : list Z :=
  match stream with
  | [] => []
  | c :: rest => if c =? 10 then rest else drain rest
  end.

(** [safe_gets]: the result is the returned pointer, what is left of
    the stream, and the storage. *)
Definition safe_gets (buf : ptr) (buf_size : Z) (stream : option (list Z)) (m : buffer)
  : outcome (ptr * option (list Z) * buffer) :=
  if is_null buf || (buf_size =? 0) || no_src stream then Done (NULL, stream, m)
  else
    r <- fgets buf (to_int buf_size) (src_string stream) m ;;
    match r with
    | None => Done (NULL, stream, m)
    | Some (st1, m1) =>
        len <- strcspn buf [13; 10] m1 ;;
        m2 <- store buf len 0 m1 ;;
        if Z.of_nat len =? size_dec buf_size
        then
          c <- load buf len m2 ;;
          if negb (c =? 0) then Done (buf, Some (drain st1), m2)
          else Done (buf, Some st1, m2)
        else Done (buf, Some st1, m2)
    end.

(** [strbgw]: the loop ends at the terminator of [sub], or at the first
    byte where the strings differ (the terminator of [str] included). *)
Fixpoint strbgw (str sub : list Z) : Z :=
  match sub with
  | [] => 1
  | c :: sub' =>
      if c =? 0 then 1
      else if negb (peek str =? c) then 0
      else strbgw (advance 1 str) sub'
  end.

(** [lastN]: the result is the string at the returned pointer. *)
Definition lastN (s : list Z) (n : Z) : list Z :=
  let length := strlen s in
  if length <? n then s else advance (Z.to_nat (length - n)) s.

(** The loop of [uppercase_inplace].  Every round moves [line] one byte
    on and a read outside the object is a fault, so [fuel], one more
    than the size of the object, is never used up. *)
Fixpoint uppercase_loop (fuel : nat) (line : ptr) (i : nat) (m : buffer) : outcome buffer :=
  match fuel with
  | O => OutOfBounds
  | S fuel' =>
      c <- load line i m ;;
      if c =? 0 then Done m
      else
        m' <- (if islower (to_uchar c)
               then store line i (to_char (toupper (to_uchar c))) m
               else Done m) ;;
        uppercase_loop fuel' line (S i) m'
  end.

Definition uppercase_inplace (line : ptr) (m : buffer) : outcome buffer :=
  if is_null line then Done m
  else uppercase_loop (S (length (bytes m))) line 0 m.

(** The loop of [makelower_safe_copy]. *)
Fixpoint makelower_loop (dest : ptr) (i : nat) (src : list Z) (dest_size : Z) (m : buffer)
  : outcome (nat * buffer) :=
  match src with
  | [] => Done (i, m)
  | c :: src' =>
      if c =? 0 then Done (i, m)
      else
        let dest_size' := size_dec dest_size in
        if negb (0 <? dest_size') then Done (i, m)
        else
          m' <- store dest i (if isupper (to_uchar c)
                              then to_char (tolower (to_uchar c))
                              else c) m ;;
          makelower_loop dest (S i) src' dest_size' m'
  end.

Definition makelower_safe_copy (dest : ptr) (src : option (list Z)) (dest_size : Z)
    (m : buffer) : outcome buffer :=
  if is_null dest || no_src src || (dest_size =? 0)
  then
    if negb (is_null dest) && (0 <? dest_size) then store dest 0 0 m else Done m
  else
    r <- makelower_loop dest 0 (src_string src) dest_size m ;;
    store dest (fst r) 0 (snd r).

(** The [for] loop of [remove_char_inplace]: [todo] rounds from index
    [i] on, [j] is the write index; the result is the final [j]. *)
Fixpoint remove_char_loop (str : ptr) (todo i j : nat) (char_to_remove : Z) (m : buffer)
  : outcome (nat * buffer) :=
  match todo with
  | O => Done (j, m)
  | S todo' =>
      c <- load str i m ;;
      if negb (c =? char_to_remove)
      then
        x <- load str i m ;;
        m' <- store str j x m ;;
        remove_char_loop str todo' (S i) (S j) char_to_remove m'
      else remove_char_loop str todo' (S i) j char_to_remove m
  end.

Definition remove_char_inplace (str : ptr) (char_to_remove : Z) (m : buffer)
  : outcome buffer :=
  if is_null str then Done m
  else
    len <- strlen_at str m ;;
    r <- remove_char_loop str len 0 0 char_to_remove m ;;
    store str (fst r) 0 (snd r).

(** [trim_inplace].  [start] and [end] are offsets from [s]; the right
    scan keeps [e], the offset of [end + 1], so that [end >= s] is
    [e > 0]. *)
Fixpoint rtrim_scan (s : ptr) (e : nat) (m : buffer) : outcome nat :=
  match e with
  | O => Done O
  | S e' =>
      c <- load s e' m ;;
      if isspace (to_uchar c) then rtrim_scan s e' m else Done e
  end.

Definition trim_inplace (s : ptr) (mode : Z) (m : buffer) : outcome buffer :=
  if is_null s then Done m
  else
    len <- strlen_at s m ;;
    if (len =? 0)%nat then Done m
    else
      r <- (if (mode =? 108) || (mode =? 98)
            then
              start <- scan_buffer (fun c => negb (negb (c =? 0) && isspace (to_uchar c))) s m ;;
              if (0 <? start)%nat
              then
                m1 <- memmove s 0 start (len - start + 1) m ;;
                len1 <- strlen_at s m1 ;;
                Done (len1, m1)
              else Done (len, m)
            else Done (len, m)) ;;
      if (mode =? 114) || (mode =? 98)
      then
        if (fst r =? 0)%nat then Done (snd r)
        else
          e <- rtrim_scan s (fst r) (snd r) ;;
          store s e 0 (snd r)
      else Done (snd r).

Definition trim_safe_copy (dest : ptr) (src : option (list Z)) (dest_size : Z) (mode : Z)
    (m : buffer) : outcome buffer :=
  if no_src src || is_null dest || (dest_size =? 0)
  then
    if negb (is_null dest) && (0 <? dest_size) then store dest 0 0 m else Done m
  else
    m' <- strzcpy dest (src_string src) dest_size m ;;
    trim_inplace dest mode m'.

(** [laststrstr]: the result is the offset of the returned pointer from
    [haystack], [None] for the null pointer.  The loop restarts one byte
    after each match, [off] is the offset of [p]; [fuel], one more than
    the length of the haystack, is never used up. *)
Fixpoint laststrstr_loop (fuel : nat) (p : list Z) (off : nat) (needle : list Z)
    (last_match : option nat) : option nat :=
  match fuel with
  | O => last_match
  | S fuel' =>
      match strstr p needle with
      | None => last_match
      | Some k =>
          laststrstr_loop fuel' (advance (S k) p) (off + k + 1) needle (Some (off + k)%nat)
      end
  end.

Definition laststrstr (haystack needle : option (list Z)) : option nat :=
  if no_src haystack || no_src needle then None
  else
    let needle_len := strlen (src_string needle) in
    if needle_len =? 0 then Some (Z.to_nat (strlen (src_string haystack)))
    else
      laststrstr_loop (S (length (src_string haystack))) (src_string haystack) 0
                      (src_string needle) None.

(** [strcasestr] (the replacement compiled where the platform has
    none).  The inner [for] loop ends in one of three ways: all
    [needle_len] bytes matched, a byte differed, or the haystack ended
    first, which makes the function return the null pointer at once. *)
Inductive inner_result : Type :=
| Matched
| Mismatch
| HaystackEnd.

Fixpoint strcasestr_inner (todo : nat) (h n : list Z) : inner_result :=
  match todo with
  | O => Matched
  | S todo' =>
      if peek h =? 0 then HaystackEnd
      else if negb (toupper (to_uchar (peek h)) =? toupper (to_uchar (peek n))) then Mismatch
      else strcasestr_inner todo' (advance 1 h) (advance 1 n)
  end.

(** The outer loop; [off] is the offset of [haystack] from where it
    started. *)
Fixpoint strcasestr_loop (haystack : list Z) (off : nat) (needle : list Z)
    (needle_len : nat) : option nat :=
  match haystack with
  | [] => None
  | c :: haystack' =>
      if c =? 0 then None
      else if toupper (to_uchar c) =? toupper (to_uchar (peek needle))
      then
        match strcasestr_inner needle_len haystack needle with
        | Matched => Some off
        | HaystackEnd => None
        | Mismatch => strcasestr_loop haystack' (S off) needle needle_len
        end
      else strcasestr_loop haystack' (S off) needle needle_len
  end.

Definition strcasestr (haystack needle : option (list Z)) : option nat :=
  if no_src haystack || no_src needle then None
  else if peek (src_string needle) =? 0 then Some O
  else
    strcasestr_loop (src_string haystack) 0 (src_string needle)
                    (Z.to_nat (strlen (src_string needle))).

End Aiutils.

(** ** Vocabulary of the properties *)

Module Spec.
Import Int.

(** Decimal representation: [ds] are the digits of [n], most significant
    first, without a leading zero (zero itself is the single digit 0). *)
Definition digits_value (ds : list Z) : Z :=
  fold_left (fun acc d => acc * 10 + d) ds 0.

Definition is_decimal (ds : list Z) (n : Z) : Prop :=
  Forall (fun d => 0 <= d <= 9) ds /\
  (ds = [0] \/ exists d ds', ds = d :: ds' /\ d <> 0) /\
  digits_value ds = n.

Definition digit_char (d : Z) : Z := 48 + d.

(** Character classes of the hexadecimal parser. *)
Definition hex_digit (c : Z) : option Z :=
  if (48 <=? c) && (c <=? 57) then Some (c - 48)
  else if (65 <=? c) && (c <=? 70) then Some (c - 65 + 10)
  else if (97 <=? c) && (c <=? 102) then Some (c - 97 + 10)
  else None.

Definition is_sign (c : Z) : bool := (c =? 45) || (c =? 43).
Definition is_sign_or_space (c : Z) : bool := is_sign c || (c =? 32).
Definition is_hex_digit (c : Z) : bool :=
  match hex_digit c with Some _ => true | None => false end.
Definition hex_class (c : Z) : bool := is_hex_digit c || is_sign_or_space c.

(** The values of the hex digits of a slice, in order, and their
    accumulation [v <- (v << 4) | digit] in 64 bits. *)
Definition hex_digits (s : list Z) : list Z := omap hex_digit s.

Definition accumulate (ds : list Z) : Z :=
  fold_left (fun v d => Z.lor (shl64 v 4) d) ds 0.

(** The last sign byte of a slice, if it has one. *)
Definition last_sign (s : list Z) : option Z := last (filter (fun c => is_sign c = true) s).

(** The string [0123456789] of the substring scenario. *)
Definition digits10 : list Z := [48; 49; 50; 51; 52; 53; 54; 55; 56; 57].

(** Whether the last sign byte is ['-']. *)
Definition negated (s : list Z) : bool :=
  match last_sign s with Some c => c =? 45 | None => false end.

(** White space as [trim_inplace] tests it, and the trimmed strings. *)
Definition blank (c : Z) : bool := Libc.isspace (Libc.to_uchar c).

Fixpoint drop_blank (l : list Z) : list Z :=
  match l with
  | [] => []
  | c :: l' => if blank c then drop_blank l' else l
  end.

Definition ltrim (l : list Z) : list Z := drop_blank l.
Definition rtrim (l : list Z) : list Z := rev (drop_blank (rev l)).

Definition trimmed (mode : Z) (l : list Z) : list Z :=
  if mode =? 98 then rtrim (ltrim l)
  else if mode =? 108 then ltrim l
  else if mode =? 114 then rtrim l
  else l.

(** A byte of a string held in a [char]: not the terminator, and in the
    range of a signed or an unsigned byte. *)
Definition text_byte (c : Z) : Prop := c <> 0 /\ -128 <= c <= 255.

(** The replacement of [ch] by [newch] on one byte. *)
Definition replaced (ch newch c : Z) : Z := if c =? ch then newch else c.

(** The value of a list of hex digits, most significant first. *)
Definition hex_value (ds : list Z) : Z := fold_left (fun v d => v * 16 + d) ds 0.

(** [needle] occurs in [h] at offset [i]. *)
Definition occurs_at (needle h : list Z) (i : nat) : Prop :=
  exists pre post : list Z, h = pre ++ needle ++ post /\ length pre = i.

(** The case folding of [strcasestr]. *)
Definition fold_upper (c : Z) : Z := Libc.toupper (Libc.to_uchar c).

(** [r] is the last offset below [bound] at which [needle] occurs in
    [h], or [None] when there is none. *)
Definition last_below (needle h : list Z) (bound : nat) (r : option nat) : Prop :=
  match r with
  | None => forall j : nat, (j < bound)%nat -> ~ occurs_at needle h j
  | Some l =>
      (l < bound)%nat /\ occurs_at needle h l /\
      forall j : nat, (j < bound)%nat -> occurs_at needle h j -> (j <= l)%nat
  end.

End Spec.

(** ** Proof automation *)

(** Case analysis on every comparison of integers in sight. *)
Ltac by_ranges :=
  repeat match goal with
         | |- context [Z.leb ?a ?b] => destruct (Z.leb_spec a b)
         | |- context [Z.eqb ?a ?b] => destruct (Z.eqb_spec a b)
         | H : context [Z.leb ?a ?b] |- _ => destruct (Z.leb_spec a b)
         | H : context [Z.eqb ?a ?b] |- _ => destruct (Z.eqb_spec a b)
         end;
  simpl in *; try discriminate; try lia; try reflexivity.

(** ** Worked calls *)

Section Examples.
Import Aiutils.

Example strzcpy_ABCDE_3 :
  strzcpy (Ptr 0) [65; 66; 67; 68; 69] 3 (Buffer [1; 2; 3; 4] []) = Done (Buffer [65; 66; 0; 4] [2; 1; 0]%nat).
Proof. reflexivity. Qed.

Example fitoa_7_4 :
  bytes <$> (match fitoa 7 4 (Ptr 0) (Buffer [1; 1; 1; 1; 1] []) with Done m => Some m | _ => None end)
  = Some [32; 32; 32; 55; 0].
Proof. reflexivity. Qed.

Example fitoa_12345_3 :
  bytes <$> (match fitoa 12345 3 (Ptr 0) (Buffer [1; 1; 1; 1] []) with Done m => Some m | _ => None end)
  = Some [42; 42; 42; 0].
Proof. reflexivity. Qed.

Example decatoi_123abc : decatoi [49; 50; 51; 97; 98; 99] 6 77 = (0, 77).
Proof. reflexivity. Qed.

Example decatoi_empty : decatoi [] 0 77 = (1, 0).
Proof. reflexivity. Qed.

Example decatoi_llong_min :
  decatoi [45; 57; 50; 50; 51; 51; 55; 50; 48; 51; 54; 56; 53; 52; 55; 55; 53; 56; 48; 56] 20 0
  = (1, -9223372036854775808).
Proof. vm_compute. reflexivity. Qed.

Example hexatoi_1x : fst (hexatoi [49; 120] 2 0) = 1.
Proof. reflexivity. Qed.

Example hexatoi_1_2 : hexatoi [32; 49; 32; 50; 32] 5 0 = (4, 18).
Proof. reflexivity. Qed.

Example strcmpii_Foo : strcmpii [70; 79; 79] [102; 111; 111] = 0.
Proof. reflexivity. Qed.

Example replace_char_safe_copy_a_b_c :
  replace_char_safe_copy (Ptr 0) (Some [97; 32; 98; 32; 99]) 6 32 95 0 (Buffer (replicate 6 1) [])
  = Done (Buffer [97; 95; 98; 95; 99; 0] [3; 1; 5; 4; 3; 2; 1; 0]%nat).
Proof. reflexivity. Qed.

Example safe_gets_alpha_beta :
  safe_gets (Ptr 0) 16 (Some [97; 108; 13; 10; 98; 10]) (Buffer (replicate 16 1) [])
  = Done (Ptr 0, Some [98; 10],
          Buffer ([97; 108; 0; 10; 0] ++ replicate 11 1) [2; 4; 3; 2; 1; 0]%nat).
Proof. reflexivity. Qed.

End Examples.

(** ** Storage lemmas *)

Section Storage.

Lemma buffer_eta (m : buffer) : Buffer (bytes m) (written m) = m.
Proof. by destruct m. Qed.

(** A store inside the object replaces one byte and is logged. *)
Lemma store_inside (b i : nat) (v : Z) (pre post : list Z) (o : Z) (w : list nat) :
  length pre = (b + i)%nat ->
  store (Ptr b) i v (Buffer (pre ++ o :: post) w)
  = Done (Buffer (pre ++ v :: post) ((b + i)%nat :: w)).
Proof.
  intros Hpre. unfold store; simpl.
  rewrite length_app; simpl.
  destruct (Nat.ltb_spec (b + i) (length pre + S (length post))); [| lia].
  rewrite <- Hpre.
  rewrite insert_app_r_alt by lia.
  by rewrite Nat.sub_diag.
Qed.

Lemma store_null (i : nat) (v : Z) (m : buffer) : store NULL i v m = NullDeref.
Proof. reflexivity. Qed.

Lemma load_inside (b i : nat) (pre post : list Z) (o : Z) (w : list nat) :
  length pre = (b + i)%nat ->
  load (Ptr b) i (Buffer (pre ++ o :: post) w) = Done o.
Proof.
  intros Hpre. unfold load; simpl.
  rewrite lookup_app_r by lia.
  by replace (b + i - length pre)%nat with O by lia.
Qed.

End Storage.

(** ** [strzcpy]: bounded copy *)

Section Strzcpy.
Import Int Aiutils.

Lemma size_dec_pos (x : Z) : 1 <= x < size_max -> size_dec x = x - 1.
Proof. intros H. unfold size_dec. apply Z.mod_small. lia. Qed.

Lemma cstring_nil_of_zero (c : Z) (s : list Z) : c = 0 -> cstring (c :: s) = [].
Proof. intros ->. reflexivity. Qed.

Lemma cstring_cons (c : Z) (s : list Z) : c <> 0 -> cstring (c :: s) = c :: cstring s.
Proof. intros H. simpl. by destruct (Z.eqb_spec c 0). Qed.

(** The copy loop overwrites the [k] bytes [old] that follow [pre] by
    the first [k] bytes of the string, where [k] is the smaller of the
    string's length and [dsize - 1], and touches nothing else. *)
Lemma copy_loop_spec (s : list Z) :
  forall (b i : nat) (dsize : Z) (pre old post : list Z) (w : list nat),
    1 <= dsize < size_max ->
    length pre = (b + i)%nat ->
    length old = Nat.min (length (cstring s)) (Z.to_nat (dsize - 1)) ->
    copy_loop (Ptr b) i s dsize (Buffer (pre ++ old ++ post) w)
    = Done ((i + length old)%nat,
            Buffer (pre ++ take (length old) (cstring s) ++ post)
                   (rev (seq (b + i) (length old)) ++ w)).
Proof.
  induction s as [| c s IH]; intros b i dsize pre old post w Hd Hpre Hold.
  - simpl in *. destruct old; [| discriminate]. simpl.
    by rewrite Nat.add_0_r.
  - simpl. destruct (Z.eqb_spec c 0) as [Hc | Hc].
    + rewrite cstring_nil_of_zero in Hold by done. simpl in Hold.
      destruct old; [| discriminate]. simpl. by rewrite Nat.add_0_r.
    + rewrite size_dec_pos by done.
      rewrite cstring_cons in * by done. cbn [length] in Hold.
      destruct (Z.eqb_spec (dsize - 1) 0) as [Hz | Hz].
      * destruct old; [| cbn [length] in Hold; lia]. simpl. by rewrite Nat.add_0_r.
      * destruct old as [| o old].
        { cbn [length] in Hold. lia. }
        cbn [length] in Hold.
        change ((o :: old) ++ post) with (o :: (old ++ post)).
        rewrite store_inside by done. simpl bind.
        replace (pre ++ c :: old ++ post) with ((pre ++ [c]) ++ old ++ post)
          by (by rewrite <- app_assoc).
        rewrite (IH b (S i) (dsize - 1) (pre ++ [c]) old post); cycle 1.
        { lia. }
        { rewrite length_app; simpl; lia. }
        { lia. }
        f_equal. f_equal.
        { simpl. lia. }
        f_equal.
        { simpl. rewrite <- app_assoc. reflexivity. }
        { simpl. rewrite <- app_assoc. simpl.
          by replace (b + S i)%nat with (S (b + i)) by lia. }
Qed.

(** Any object splits at an offset inside it. *)
Lemma split_at (l : list Z) (b k : nat) :
  (b + k < length l)%nat ->
  exists o, l = take b l ++ take k (drop b l) ++ o :: drop (b + k + 1) l.
Proof.
  intros Hlen.
  destruct (lookup_lt_is_Some_2 l (b + k)%nat Hlen) as [o Ho].
  exists o.
  rewrite <- (take_drop b l) at 1. f_equal.
  rewrite <- (take_drop k (drop b l)) at 1. f_equal.
  rewrite drop_drop.
  replace (b + k + 1)%nat with (S (b + k)) by lia.
  by apply drop_S.
Qed.

(** C8. [strzcpy(d, s, cap)]: with [cap = 0] the storage is returned as
    it was, nothing written.  With [cap >= 1] the bytes from [d] on
    become the longest prefix of the string [s] of length at most
    [cap - 1], followed by a zero byte; the bytes before [d] and after
    the terminator keep their content, and the offsets written are
    exactly those of the prefix and of the terminator, all of them
    below [cap]. *)
Theorem strzcpy_bounded_copy (s : list Z) (cap : Z) (b : nat) (m : buffer) :
  0 <= cap < size_max ->
  (b + Z.to_nat cap <= length (bytes m))%nat ->
  (cap = 0 -> strzcpy (Ptr b) s cap m = Done m) /\
  (1 <= cap ->
   let k := Nat.min (length (cstring s)) (Z.to_nat (cap - 1)) in
   strzcpy (Ptr b) s cap m
   = Done (Buffer (take b (bytes m) ++ take k (cstring s) ++ 0 :: drop (b + k + 1) (bytes m))
                  (rev (seq b (S k)) ++ written m)) /\
   take k (cstring s) `prefix_of` cstring s /\
   Forall (fun i => (i < b + Z.to_nat cap)%nat) (seq b (S k))).
Proof.
  intros Hcap Hlen. split.
  - intros ->. reflexivity.
  - intros Hpos k. split; [| split].
    + unfold strzcpy. destruct (Z.leb_spec cap 0); [lia |].
      destruct (split_at (bytes m) b k) as [o Ho]; [lia |].
      rewrite <- (buffer_eta m) at 1. rewrite Ho at 1.
      set (old := take k (drop b (bytes m))).
      assert (Hold : length old = k).
      { unfold old. rewrite length_take, length_drop. lia. }
      replace (take b (bytes m) ++ old ++ o :: drop (b + k + 1) (bytes m))
        with (take b (bytes m) ++ old ++ (o :: drop (b + k + 1) (bytes m))) by done.
      rewrite (copy_loop_spec s b 0); cycle 1.
      { lia. }
      { rewrite length_take. lia. }
      { by rewrite Hold. }
      simpl bind. cbn [fst snd]. rewrite Hold.
      rewrite (app_assoc (take b (bytes m))).
      rewrite store_inside; cycle 1.
      { rewrite length_app, !length_take. unfold k. lia. }
      f_equal. f_equal.
      * by rewrite <- app_assoc.
      * rewrite seq_S, rev_app_distr. simpl.
        by replace (b + 0)%nat with b by lia.
    + apply prefix_take.
    + apply Forall_forall. intros i Hi. apply elem_of_seq in Hi. unfold k in Hi. lia.
Qed.

Lemma strzcpy_bounded_copy_witness :
  Aiutils.strzcpy (Ptr 0) [65; 66; 67; 68; 69] 3 (Buffer [1; 2; 3; 4] [])
  = Done (Buffer [65; 66; 0; 4] [2; 1; 0]%nat).
Proof.
  destruct (strzcpy_bounded_copy [65; 66; 67; 68; 69] 3 0 (Buffer [1; 2; 3; 4] []))
    as [_ H].
  - unfold size_max. lia.
  - simpl. lia.
  - destruct H as [H _]; [lia |]. exact H.
Defined.

End Strzcpy.

(** ** [strcmpii]: comparison regardless of case *)

Section Strcmpii.
Import Libc Aiutils.

Lemma tolower_zero (c : Z) : tolower c = 0 <-> c = 0.
Proof.
  unfold tolower.
  destruct (Z.leb_spec 65 c), (Z.leb_spec c 90); simpl; lia.
Qed.

(** One round of the loop, for a first string that has a byte left. *)
Lemma strcmpii_cons (c : Z) (s1 s2 : list Z) :
  strcmpii (c :: s1) s2 =
  if tolower c =? tolower (peek s2)
  then if c =? 0 then 0 else strcmpii s1 (advance 1 s2)
  else tolower c - tolower (peek s2).
Proof. reflexivity. Qed.

Lemma strcmpii_nil (s2 : list Z) :
  strcmpii [] s2 = - tolower (peek s2).
Proof.
  change (strcmpii [] s2)
    with (if 0 =? tolower (peek s2) then 0 else 0 - tolower (peek s2)).
  destruct (Z.eqb_spec 0 (tolower (peek s2))); lia.
Qed.

(** Swapping the arguments negates the result. *)
Lemma strcmpii_swap (a : list Z) : forall b : list Z, strcmpii a b = - strcmpii b a.
Proof.
  induction a as [| c a IH]; intros b.
  - rewrite strcmpii_nil. destruct b as [| d b].
    + reflexivity.
    + rewrite strcmpii_cons. cbn [peek hd]. change (tolower 0) with 0.
      destruct (Z.eqb_spec (tolower d) 0) as [Hd | Hd]; [| lia].
      apply (proj1 (tolower_zero d)) in Hd. subst d. reflexivity.
  - rewrite strcmpii_cons. destruct b as [| d b].
    + rewrite strcmpii_nil. cbn [peek hd]. change (tolower 0) with 0.
      destruct (Z.eqb_spec (tolower c) 0) as [Hc | Hc]; [| lia].
      apply (proj1 (tolower_zero c)) in Hc. subst c. reflexivity.
    + rewrite strcmpii_cons. cbn [peek hd advance drop].
      rewrite (Z.eqb_sym (tolower d) (tolower c)).
      destruct (Z.eqb_spec (tolower c) (tolower d)) as [Heq | Hne]; [| lia].
      destruct (Z.eqb_spec c 0) as [Hc | Hc], (Z.eqb_spec d 0) as [Hd | Hd].
      * reflexivity.
      * subst c. symmetry in Heq. apply (proj1 (tolower_zero d)) in Heq. contradiction.
      * subst d. apply (proj1 (tolower_zero c)) in Heq. contradiction.
      * apply IH.
Qed.

(** C9. The sign of [strcmpii a b] is the negation of the sign of
    [strcmpii b a], for all strings [a] and [b]. *)
Theorem strcmpii_antisymmetric (a b : list Z) :
  Z.sgn (strcmpii a b) = - Z.sgn (strcmpii b a).
Proof. rewrite (strcmpii_swap a b). apply Z.sgn_opp. Qed.

End Strcmpii.

(** ** [hexatoi]: the permissive hexadecimal parser *)

Section Hexatoi.
Import Int Aiutils Spec.

(** One round of the loop, by the class of the byte. *)
Lemma hexatoi_loop_digit (c d : Z) (s : list Z) (v sg r : Z) :
  hex_digit c = Some d ->
  hexatoi_loop (c :: s) v sg r = hexatoi_loop s (Z.lor (shl64 v 4) d) sg r.
Proof.
  intros H. cbn [hexatoi_loop]. unfold hex_digit in H.
  by_ranges; inversion H; subst d; f_equal; f_equal; lia.
Qed.

Lemma hexatoi_loop_space (s : list Z) (v sg r : Z) :
  hexatoi_loop (32 :: s) v sg r = hexatoi_loop s v sg (Z.lor r 4).
Proof. reflexivity. Qed.

Lemma hexatoi_loop_minus (s : list Z) (v sg r : Z) :
  hexatoi_loop (45 :: s) v sg r = hexatoi_loop s v (-1) (Z.lor r 4).
Proof. reflexivity. Qed.

Lemma hexatoi_loop_plus (s : list Z) (v sg r : Z) :
  hexatoi_loop (43 :: s) v sg r = hexatoi_loop s v 1 (Z.lor r 4).
Proof. reflexivity. Qed.

Lemma hexatoi_loop_other (c : Z) (s : list Z) (v sg r : Z) :
  hex_class c = false ->
  hexatoi_loop (c :: s) v sg r = (1, v).
Proof.
  intros H. cbn [hexatoi_loop].
  unfold hex_class, is_hex_digit, hex_digit, is_sign_or_space, is_sign in H.
  by_ranges.
Qed.

(** A byte of the classes is a hex digit, a space or a sign. *)
Lemma hex_class_cases (c : Z) :
  hex_class c = true ->
  (exists d, hex_digit c = Some d /\ is_sign_or_space c = false) \/
  (hex_digit c = None /\ (c = 32 \/ c = 45 \/ c = 43)).
Proof.
  unfold hex_class, is_hex_digit, is_sign_or_space, is_sign, hex_digit.
  intros H. by_ranges; eauto.
Qed.

Lemma last_sign_cons (c : Z) (s : list Z) :
  last_sign (c :: s) =
  match last_sign s with
  | Some x => Some x
  | None => if is_sign c then Some c else None
  end.
Proof.
  unfold last_sign. rewrite filter_cons.
  destruct (decide (is_sign c = true)) as [Hc | Hc].
  - rewrite Hc, last_cons. reflexivity.
  - apply not_true_is_false in Hc. rewrite Hc.
    by destruct (last (filter (fun c0 => is_sign c0 = true) s)).
Qed.

Lemma hex_digits_cons (c : Z) (s : list Z) :
  hex_digits (c :: s) =
  match hex_digit c with
  | Some d => d :: hex_digits s
  | None => hex_digits s
  end.
Proof. reflexivity. Qed.

Lemma lor_4_twice (r : Z) : Z.lor (Z.lor r 4) 4 = Z.lor r 4.
Proof. by rewrite <- Z.lor_assoc, Z.lor_diag. Qed.

(** The loop on a slice of the classes, from any state: the return code
    gains bit 2 when a sign or a space occurs, the digits are
    accumulated in order, and the sign in force at the end is that of
    the last sign byte, or the initial one when there is none. *)
Lemma hexatoi_loop_classes (s : list Z) :
  forall v sg r : Z,
    forallb hex_class s = true ->
    hexatoi_loop s v sg r =
    (if existsb is_sign_or_space s then Z.lor r 4 else r,
     let a := fold_left (fun v d => Z.lor (shl64 v 4) d) (hex_digits s) v in
     if match last_sign s with Some c => c =? 45 | None => sg =? -1 end
     then neg64 a else a).
Proof.
  induction s as [| c s IH]; intros v sg r Hs.
  - reflexivity.
  - cbn [forallb] in Hs. apply andb_true_iff in Hs as [Hc Hs].
    rewrite last_sign_cons, hex_digits_cons. cbn [existsb].
    destruct (hex_class_cases c Hc) as [(d & Hd & Hns) | (Hd & [-> | [-> | ->]])].
    + rewrite (hexatoi_loop_digit c d) by done. rewrite IH by done.
      rewrite Hd, Hns. cbn [orb fold_left].
      assert (Hsg : is_sign c = false).
      { unfold is_sign_or_space in Hns. by apply orb_false_iff in Hns as [? _]. }
      rewrite Hsg. by destruct (last_sign s).
    + rewrite hexatoi_loop_space, IH by done. rewrite Hd. cbn [is_sign_or_space is_sign orb].
      simpl orb. rewrite lor_4_twice.
      destruct (existsb is_sign_or_space s); by destruct (last_sign s).
    + rewrite hexatoi_loop_minus, IH by done. rewrite Hd. simpl orb. rewrite lor_4_twice.
      simpl is_sign.
      destruct (existsb is_sign_or_space s); by destruct (last_sign s).
    + rewrite hexatoi_loop_plus, IH by done. rewrite Hd. simpl orb. rewrite lor_4_twice.
      simpl is_sign.
      destruct (existsb is_sign_or_space s); by destruct (last_sign s).
Qed.

(** The loop stops at the first byte outside the classes, with the
    digits before it accumulated and no sign applied. *)
Lemma hexatoi_loop_stops (pre : list Z) :
  forall (c : Z) (post : list Z) (v sg r : Z),
    forallb hex_class pre = true ->
    hex_class c = false ->
    hexatoi_loop (pre ++ c :: post) v sg r
    = (1, fold_left (fun v d => Z.lor (shl64 v 4) d) (hex_digits pre) v).
Proof.
  induction pre as [| p pre IH]; intros c post v sg r Hpre Hc.
  - simpl app. by rewrite hexatoi_loop_other.
  - cbn [forallb] in Hpre. apply andb_true_iff in Hpre as [Hp Hpre].
    simpl app. rewrite hex_digits_cons.
    destruct (hex_class_cases p Hp) as [(d & Hd & _) | (Hd & [-> | [-> | ->]])].
    + rewrite (hexatoi_loop_digit p d) by done. rewrite IH by done. by rewrite Hd.
    + rewrite hexatoi_loop_space, IH by done. by rewrite Hd.
    + rewrite hexatoi_loop_minus, IH by done. by rewrite Hd.
    + rewrite hexatoi_loop_plus, IH by done. by rewrite Hd.
Qed.

Lemma hexatoi_whole (s : list Z) (v0 : Z) :
  hexatoi s (Z.of_nat (length s)) v0 = hexatoi_loop s 0 0 0.
Proof. unfold hexatoi. by rewrite Nat2Z.id, firstn_all. Qed.

Lemma only_digits_no_sign (s : list Z) :
  forallb is_hex_digit s = true -> existsb is_sign_or_space s = false.
Proof.
  induction s as [| c s IH]; [done |].
  cbn [forallb existsb]. intros H. apply andb_true_iff in H as [Hc Hs].
  rewrite (IH Hs), orb_false_r.
  unfold is_hex_digit, hex_digit in Hc. unfold is_sign_or_space, is_sign.
  by_ranges.
Qed.

(** C5. On a slice of hex digits, spaces and signs, [hexatoi] returns 0
    when the slice has only hex digits and 4 when it has a sign or a
    space, wherever they stand; the value stored is the accumulation
    [v <- (v << 4) | digit] of the hex digits from left to right, negated
    exactly when the last sign byte is ['-'].  The slice of the five
    bytes [  -ff] gives 4 and -255.  A byte outside the classes ends the
    call with 1 at once: what follows it has no influence. *)
Theorem hexatoi_permissive (v0 : Z) :
  (forall s : list Z,
      forallb hex_class s = true ->
      (forallb is_hex_digit s = true -> fst (hexatoi s (Z.of_nat (length s)) v0) = 0) /\
      (existsb is_sign_or_space s = true -> fst (hexatoi s (Z.of_nat (length s)) v0) = 4) /\
      snd (hexatoi s (Z.of_nat (length s)) v0)
      = if negated s then neg64 (accumulate (hex_digits s)) else accumulate (hex_digits s)) /\
  hexatoi [32; 32; 45; 102; 102] 5 v0 = (4, -255) /\
  (forall (pre : list Z) (c : Z) (post post' : list Z),
      forallb hex_class pre = true ->
      hex_class c = false ->
      fst (hexatoi (pre ++ c :: post) (Z.of_nat (length (pre ++ c :: post))) v0) = 1 /\
      hexatoi (pre ++ c :: post) (Z.of_nat (length (pre ++ c :: post))) v0
      = hexatoi (pre ++ c :: post') (Z.of_nat (length (pre ++ c :: post'))) v0).
Proof.
  split; [| split].
  - intros s Hs. rewrite hexatoi_whole, hexatoi_loop_classes by done.
    cbn [fst snd]. split; [| split].
    + intros Hd. by rewrite only_digits_no_sign.
    + intros Hx. by rewrite Hx.
    + unfold negated, accumulate. cbv zeta. by destruct (last_sign s).
  - reflexivity.
  - intros pre c post post' Hpre Hc.
    rewrite !hexatoi_whole, !hexatoi_loop_stops by done. done.
Qed.

Lemma hexatoi_permissive_witness :
  hexatoi [49; 45; 43; 32; 45; 97] (Z.of_nat (length [49; 45; 43; 32; 45; 97])) 7 = (4, -26).
Proof.
  destruct (hexatoi_permissive 7) as [H _].
  destruct (H [49; 45; 43; 32; 45; 97]) as (_ & Hret & Hval); [reflexivity |].
  rewrite (surjective_pairing (hexatoi _ _ _)), Hret, Hval; reflexivity.
Defined.

(** C10. [hexatoi] stores before it has validated the whole input: when
    it returns 1 at a byte outside the classes, [*value] holds the
    accumulation of the hex digits before that byte, with no sign
    applied, whatever it held on entry; it is neither left unchanged
    nor restored. *)
Theorem hexatoi_failure_not_atomic (pre : list Z) (c : Z) (post : list Z) (v0 : Z) :
  forallb hex_class pre = true ->
  hex_class c = false ->
  hexatoi (pre ++ c :: post) (Z.of_nat (length (pre ++ c :: post))) v0
  = (1, accumulate (hex_digits pre)).
Proof.
  intros Hpre Hc. rewrite hexatoi_whole. by apply hexatoi_loop_stops.
Qed.

Lemma hexatoi_failure_not_atomic_witness :
  hexatoi [45; 49; 50; 120; 51] 5 7 = (1, 18) /\ snd (hexatoi [45; 49; 50; 120; 51] 5 7) <> 7.
Proof.
  pose proof (hexatoi_failure_not_atomic [45; 49; 50] 120 [51] 7 eq_refl eq_refl) as H.
  split.
  - exact H.
  - change (Z.of_nat (length ([45; 49; 50] ++ [120; 51]))) with 5 in H.
    change ([45; 49; 50] ++ [120; 51]) with [45; 49; 50; 120; 51] in H.
    rewrite H. discriminate.
Defined.

End Hexatoi.

(** ** Decimal representations *)

Section Decimal.
Import Spec.

Lemma digits_value_snoc (ds : list Z) (d : Z) :
  digits_value (ds ++ [d]) = digits_value ds * 10 + d.
Proof. unfold digits_value. by rewrite fold_left_app. Qed.

Lemma digits_fold_pos (ds : list Z) :
  forall acc : Z,
    1 <= acc -> Forall (fun d => 0 <= d <= 9) ds ->
    1 <= fold_left (fun acc d => acc * 10 + d) ds acc.
Proof.
  induction ds as [| d ds IH]; intros acc Hacc Hds; [done |].
  inversion Hds; subst. simpl. apply IH; [lia | done].
Qed.

Lemma is_decimal_nonempty (ds : list Z) (n : Z) : is_decimal ds n -> ds <> [].
Proof. intros (_ & [-> | (d & ds' & -> & _)] & _); discriminate. Qed.

Lemma digits_value_nonneg (ds : list Z) :
  Forall (fun d => 0 <= d <= 9) ds -> 0 <= digits_value ds.
Proof.
  intros Hd. unfold digits_value.
  assert (H : forall acc, 0 <= acc -> 0 <= fold_left (fun acc d => acc * 10 + d) ds acc).
  { induction Hd as [| d ds Hd0 Hd IH]; intros acc Hacc; [done |].
    simpl. apply IH. lia. }
  by apply H.
Qed.

Lemma is_decimal_nonneg (ds : list Z) (n : Z) : is_decimal ds n -> 0 <= n.
Proof. intros (Hd & _ & <-). by apply digits_value_nonneg. Qed.

(** The last digit is [n mod 10]; the digits before it, if any, are
    the representation of [n / 10], which is then not zero. *)
Lemma is_decimal_snoc (ds : list Z) (d0 n : Z) :
  is_decimal (ds ++ [d0]) n ->
  n mod 10 = d0 /\ 0 <= d0 <= 9 /\
  ((ds = [] /\ n / 10 = 0) \/ (ds <> [] /\ n / 10 <> 0 /\ is_decimal ds (n / 10))).
Proof.
  intros (Hd & Hlead & Hval).
  apply Forall_app in Hd as [Hds Hd0]. inversion Hd0 as [| ? ? Hr _]; subst.
  rewrite digits_value_snoc.
  destruct ds as [| d ds].
  - change (digits_value []) with 0.
    repeat split; try lia.
    + rewrite Z.add_0_l. by apply Z.mod_small; lia.
    + left. split; [done |]. apply Z.div_small. lia.
  - assert (Hd : d <> 0).
    { destruct Hlead as [Heq | (d' & ds' & Heq & Hne)].
      - destruct ds; discriminate.
      - by inversion Heq; subst. }
    assert (Hpos : 1 <= digits_value (d :: ds)).
    { inversion Hds; subst. unfold digits_value. simpl.
      apply digits_fold_pos; [lia | done]. }
    assert (Hdiv : (digits_value (d :: ds) * 10 + d0) / 10 = digits_value (d :: ds)).
    { rewrite Z.div_add_l by lia. rewrite (Z.div_small d0) by lia. lia. }
    repeat split; try lia.
    + rewrite Z.add_comm, Z.mod_add by lia. apply Z.mod_small. lia.
    + right. split; [done |]. rewrite Hdiv. split; [lia |].
      split; [done |]. split; [| done]. right. by exists d, ds.
Qed.

(** Every natural number has a decimal representation. *)
Lemma is_decimal_exists (n : Z) : 0 <= n -> exists ds, is_decimal ds n.
Proof.
  intros Hn.
  refine (Z_lt_induction (fun n => 0 <= n -> exists ds, is_decimal ds n) _ n Hn Hn).
  clear n Hn. intros n IH Hn.
  destruct (Z_lt_le_dec n 10) as [Hsmall | Hbig].
  - exists [n]. split; [| split].
    + constructor; [lia | constructor].
    + destruct (Z.eq_dec n 0) as [-> | Hne]; [by left |].
      right. by exists n, [].
    + unfold digits_value. simpl. lia.
  - destruct (IH (n / 10)) as [ds Hds].
    { split; [apply Z.div_pos; lia | apply Z.div_lt; lia]. }
    { apply Z.div_pos; lia. }
    exists (ds ++ [n mod 10]).
    destruct Hds as (Hd & Hlead & Hval).
    pose proof (Z.mod_pos_bound n 10) as Hm.
    split; [| split].
    + apply Forall_app. split; [done |]. constructor; [lia | constructor].
    + right. destruct Hlead as [-> | (d & ds' & -> & Hne)].
      * unfold digits_value in Hval. simpl in Hval.
        assert (n / 10 >= 1) by (apply Z.le_ge, Z.div_le_lower_bound; lia). lia.
      * by exists d, (ds' ++ [n mod 10]).
    + rewrite digits_value_snoc, Hval.
      pose proof (Z.div_mod n 10). lia.
Qed.

(** The representation is unique. *)
Lemma is_decimal_unique (ds : list Z) :
  forall (ds' : list Z) (n : Z), is_decimal ds n -> is_decimal ds' n -> ds = ds'.
Proof.
  induction ds as [| d0 ds IH] using rev_ind; intros ds' n Hds Hds'.
  - by apply is_decimal_nonempty in Hds.
  - destruct ds' as [| d0' ds' _] using rev_ind.
    { by apply is_decimal_nonempty in Hds'. }
    apply is_decimal_snoc in Hds as (Hm & _ & Hrest).
    apply is_decimal_snoc in Hds' as (Hm' & _ & Hrest').
    assert (d0 = d0') as <- by lia.
    destruct Hrest as [[-> Hq] | (Hne & Hq & Hds)],
             Hrest' as [[-> Hq'] | (Hne' & Hq' & Hds')]; try done.
    by rewrite (IH ds' (n / 10)).
Qed.

(** A number below [10 ^ k] has at most [k] digits. *)
Lemma is_decimal_length (ds : list Z) :
  forall (n : Z) (k : nat),
    is_decimal ds n -> (1 <= k)%nat -> n < 10 ^ Z.of_nat k -> (length ds <= k)%nat.
Proof.
  induction ds as [| d0 ds IH] using rev_ind; intros n k Hds Hk Hn.
  - simpl. lia.
  - apply is_decimal_snoc in Hds as (_ & _ & [[-> _] | (Hne & Hdiv & Hds)]).
    + simpl. lia.
    + rewrite length_app. simpl.
      pose proof (is_decimal_nonneg _ _ Hds) as Hq.
      destruct k as [| k]; [lia |].
      assert (Hk1 : (1 <= k)%nat).
      { destruct k; [| lia]. simpl in Hn. exfalso. apply Hdiv. apply Z.div_small.
        split; [| lia]. destruct (Z_lt_le_dec n 0); [| lia].
        assert (n / 10 < 0) by (apply Z.div_lt_upper_bound; lia). lia. }
      assert (n / 10 < 10 ^ Z.of_nat k).
      { apply Z.div_lt_upper_bound; [lia |].
        rewrite Nat2Z.inj_succ, Z.pow_succ_r in Hn by lia. lia. }
      specialize (IH (n / 10) k Hds Hk1 H). lia.
Qed.

End Decimal.

(** ** [fitoa]: fixed-width rendering *)

Section Fitoa.
Import Int Aiutils Spec.

Lemma length_snoc_inv (l : list Z) (p : nat) :
  length l = S p -> exists l' o, l = l' ++ [o] /\ length l' = p.
Proof.
  intros H. destruct l as [| x l] using rev_ind; [discriminate |].
  exists l, x. split; [done |]. rewrite length_app in H. simpl in H. lia.
Qed.

(** Filling downwards from offset [p] replaces the [p] bytes before it. *)
Lemma fill_down_spec (p : nat) :
  forall (b : nat) (c : Z) (pre old post : list Z) (w : list nat),
    length pre = b -> length old = p ->
    fill_down (Ptr b) p c (Buffer (pre ++ old ++ post) w)
    = Done (Buffer (pre ++ replicate p c ++ post) (seq b p ++ w)).
Proof.
  induction p as [| p IH]; intros b c pre old post w Hpre Hold.
  - destruct old; [| discriminate]. reflexivity.
  - destruct (length_snoc_inv old p Hold) as (old' & o & -> & Hold').
    cbn [fill_down].
    replace (pre ++ (old' ++ [o]) ++ post) with ((pre ++ old') ++ o :: post)
      by (by rewrite <- !app_assoc).
    rewrite store_inside by (rewrite length_app; lia). simpl bind.
    rewrite <- app_assoc. rewrite (IH b c pre old' (c :: post)) by done.
    f_equal. f_equal.
    + rewrite replicate_S_end. by rewrite <- !app_assoc.
    + rewrite seq_S. by rewrite <- app_assoc.
Qed.

(** The digit loop when the number fits in the [p] bytes left. *)
Lemma fitoa_loop_fits (wid : nat) (p : nat) :
  forall (ds : list Z) (n : Z) (b : nat) (pre old post : list Z) (w : list nat),
    is_decimal ds n -> (length ds <= p)%nat ->
    length pre = b -> length old = p ->
    fitoa_loop (Ptr b) wid n p (Buffer (pre ++ old ++ post) w)
    = Done (Buffer (pre ++ replicate (p - length ds) 32 ++ map digit_char ds ++ post)
                   (seq b p ++ w)).
Proof.
  induction p as [| p IH]; intros ds n b pre old post w Hds Hlen Hpre Hold.
  - apply is_decimal_nonempty in Hds. destruct ds; [done | simpl in Hlen; lia].
  - destruct ds as [| d0 ds _] using rev_ind.
    { by apply is_decimal_nonempty in Hds. }
    destruct (length_snoc_inv old p Hold) as (old' & o & -> & Hold').
    apply is_decimal_snoc in Hds as (Hmod & Hd0 & Hrest).
    rewrite length_app in *. cbn [length] in *.
    cbn [fitoa_loop]. rewrite Hmod.
    replace (pre ++ (old' ++ [o]) ++ post) with ((pre ++ old') ++ o :: post)
      by (by rewrite <- !app_assoc).
    rewrite store_inside by (rewrite length_app; lia). simpl bind.
    rewrite <- app_assoc.
    destruct Hrest as [[-> Hq] | (Hne & Hq & Hds)].
    + rewrite Hq. simpl Z.eqb. cbv iota.
      rewrite (fill_down_spec p b 32 pre old' _) by done.
      f_equal. f_equal.
      * simpl. by rewrite Nat.sub_0_r.
      * rewrite seq_S. by rewrite <- app_assoc.
    + destruct (Z.eqb_spec (n / 10) 0); [done |].
      rewrite (IH ds (n / 10) b pre old' _) by (done || lia).
      f_equal. f_equal.
      * replace (S p - (length ds + 1))%nat with (p - length ds)%nat by lia.
        rewrite map_app. simpl. by rewrite <- !app_assoc.
      * rewrite seq_S. by rewrite <- app_assoc.
Qed.

(** The digit loop when the number has more digits than the [p] bytes
    left: the whole field of [wid] bytes is filled with stars. *)
Lemma fitoa_loop_stars (wid : nat) (p : nat) :
  forall (ds : list Z) (n : Z) (b : nat) (pre field post : list Z) (w : list nat),
    is_decimal ds n -> (p < length ds)%nat -> (p <= wid)%nat ->
    length pre = b -> length field = wid ->
    fitoa_loop (Ptr b) wid n p (Buffer (pre ++ field ++ post) w)
    = Done (Buffer (pre ++ replicate wid 42 ++ post) (seq b wid ++ seq b p ++ w)).
Proof.
  induction p as [| p IH]; intros ds n b pre field post w Hds Hlen Hp Hpre Hfield.
  - cbn [fitoa_loop]. by rewrite (fill_down_spec wid b 42 pre field post).
  - destruct ds as [| d0 ds _] using rev_ind; [simpl in Hlen; lia |].
    rewrite length_app in Hlen. cbn [length] in Hlen.
    apply is_decimal_snoc in Hds as (Hmod & Hd0 & [[-> _] | (Hne & Hq & Hds)]).
    { simpl in Hlen. lia. }
    destruct (lookup_lt_is_Some_2 field p) as [o Ho]; [lia |].
    cbn [fitoa_loop]. rewrite Hmod.
    rewrite <- (take_drop_middle field p o Ho) at 1.
    replace (pre ++ (take p field ++ o :: drop (S p) field) ++ post)
      with ((pre ++ take p field) ++ o :: (drop (S p) field ++ post))
      by (by rewrite <- !app_assoc).
    rewrite store_inside by (rewrite length_app, length_take; lia). simpl bind.
    destruct (Z.eqb_spec (n / 10) 0); [done |].
    replace ((pre ++ take p field) ++ 48 + d0 :: drop (S p) field ++ post)
      with (pre ++ (take p field ++ 48 + d0 :: drop (S p) field) ++ post)
      by (by rewrite <- !app_assoc).
    rewrite (IH ds (n / 10) b pre _ post); try done; try lia.
    + f_equal. f_equal. f_equal. rewrite seq_S. by rewrite <- app_assoc.
    + rewrite length_app, length_take. cbn [length]. rewrite length_drop. lia.
Qed.

(** The field [fitoa] leaves for a number whose digits are [ds]. *)
Lemma fitoa_run (n : Z) (wid b : nat) (ds : list Z) (m : buffer) :
  (b + wid < length (bytes m))%nat ->
  is_decimal ds n ->
  exists m' : buffer,
    fitoa n wid (Ptr b) m = Done m' /\
    bytes m' =
    take b (bytes m) ++
    (if (length ds <=? wid)%nat
     then replicate (wid - length ds) 32 ++ map digit_char ds
     else replicate wid 42) ++
    0 :: drop (b + wid + 1) (bytes m).
Proof.
  intros Hlen Hds.
  destruct (split_at (bytes m) b wid Hlen) as [o Ho].
  set (field := take wid (drop b (bytes m))) in Ho.
  assert (Hfield : length field = wid).
  { unfold field. rewrite length_take, length_drop. lia. }
  assert (Hpre : length (take b (bytes m)) = b) by (rewrite length_take; lia).
  assert (Hstore :
    store (Ptr b) wid 0 m
    = Done (Buffer (take b (bytes m) ++ field ++ 0 :: drop (b + wid + 1) (bytes m))
                   ((b + wid)%nat :: written m))).
  { rewrite <- (buffer_eta m) at 1. rewrite Ho at 1.
    rewrite !(app_assoc (take b (bytes m)) field).
    by rewrite store_inside by (rewrite length_app; lia). }
  unfold fitoa. rewrite Hstore. simpl bind.
  destruct (Nat.leb_spec (length ds) wid) as [Hfit | Hover].
  - rewrite (fitoa_loop_fits wid wid ds n b _ field) by done.
    eexists. split; [reflexivity |]. cbn [bytes]. by rewrite <- !app_assoc.
  - rewrite (fitoa_loop_stars wid wid ds n b _ field) by (done || lia).
    eexists. split; [reflexivity |]. reflexivity.
Qed.

(** C6. For [0 <= n < 2^32] and [wid >= 1], [fitoa(n, wid, s)] leaves
    [wid] data bytes at [s] and a zero byte at [s[wid]]: when the decimal
    representation of [n] has [d <= wid] digits, the data bytes are
    [wid - d] spaces followed by the digits (for [n = 0], [wid - 1] spaces
    and ['0']); when [d > wid], they are [wid] stars.  The bytes before
    [s] and after the terminator keep their content. *)
Theorem fitoa_fixed_width (n : Z) (wid b : nat) (ds : list Z) (m : buffer) :
  0 <= n < 2 ^ 32 ->
  (1 <= wid)%nat ->
  (b + wid < length (bytes m))%nat ->
  is_decimal ds n ->
  exists m' : buffer,
    fitoa n wid (Ptr b) m = Done m' /\
    bytes m' =
    take b (bytes m) ++
    (if (length ds <=? wid)%nat
     then replicate (wid - length ds) 32 ++ map digit_char ds
     else replicate wid 42) ++
    0 :: drop (b + wid + 1) (bytes m) /\
    (n = 0 ->
     bytes m' = take b (bytes m) ++ replicate (wid - 1) 32 ++ 48 :: 0 :: drop (b + wid + 1) (bytes m)).
Proof.
  intros Hn Hwid Hlen Hds.
  destruct (fitoa_run n wid b ds m Hlen Hds) as (m' & Hrun & Hbytes).
  exists m'. split; [done |]. split; [done |].
  intros ->.
  assert (ds = [0]) as ->.
  { apply (is_decimal_unique ds [0] 0 Hds).
    split; [| split]; [repeat constructor; lia | by left | reflexivity]. }
  rewrite Hbytes. cbn [length].
  rewrite (proj2 (Nat.leb_le 1 wid)) by lia.
  by rewrite <- app_assoc.
Qed.

Lemma fitoa_fixed_width_witness :
  exists m' : buffer,
    fitoa 12345 3 (Ptr 0) (Buffer [1; 1; 1; 1; 1] []) = Done m' /\
    bytes m' = [42; 42; 42; 0; 1] /\
    (12345 = 0 -> bytes m' = [32; 32; 48; 0; 1]).
Proof.
  apply (fitoa_fixed_width 12345 3 0 [1; 2; 3; 4; 5] (Buffer [1; 1; 1; 1; 1] [])).
  - lia.
  - lia.
  - simpl. lia.
  - split; [| split].
    + repeat constructor; lia.
    + right. exists 1, [2; 3; 4; 5]. split; [reflexivity | lia].
    + reflexivity.
Defined.

End Fitoa.

(** ** [decatoi] and the decimal round trip *)

Section Decatoi.
Import Int Libc Aiutils Spec.

Lemma to_int_small (x : Z) : 0 <= x < 2 ^ 31 -> to_int x = x.
Proof.
  intros H. unfold to_int, wrap.
  change (2 ^ (32 - 1)) with (2 ^ 31). rewrite Z.mod_small; lia.
Qed.

Lemma cstring_digits (ds rest : list Z) :
  Forall (fun d => 0 <= d <= 9) ds ->
  cstring (map digit_char ds ++ 0 :: rest) = map digit_char ds.
Proof.
  induction 1 as [| d ds Hd _ IH]; [reflexivity |].
  cbn [map app]. rewrite cstring_cons by (unfold digit_char; lia).
  by rewrite IH.
Qed.

Lemma strncpy_bytes_digits (ds rest : list Z) :
  Forall (fun d => 0 <= d <= 9) ds ->
  strncpy_bytes (map digit_char ds ++ rest) (length ds) = map digit_char ds.
Proof.
  induction 1 as [| d ds Hd _ IH]; [reflexivity |].
  cbn [map app length strncpy_bytes].
  destruct (Z.eqb_spec (digit_char d) 0) as [H0 | _]; [unfold digit_char in H0; lia |].
  by rewrite IH.
Qed.

Lemma span_digits_digits (ds rest : list Z) :
  forall acc : Z,
    Forall (fun d => 0 <= d <= 9) ds ->
    span_digits (map digit_char ds ++ 0 :: rest) acc
    = (fold_left (fun acc d => acc * 10 + d) ds acc, length ds).
Proof.
  induction ds as [| d ds IH]; intros acc Hds; [reflexivity |].
  apply Forall_cons in Hds as [Hd Hds'].
  cbn [map app span_digits]. unfold isdigit, digit_char at 1 2.
  destruct (Z.leb_spec 48 (48 + d)); [| lia].
  destruct (Z.leb_spec (48 + d) 57); [| lia].
  cbn [andb]. rewrite IH by done. cbn [fold_left length].
  f_equal. f_equal. unfold digit_char. lia.
Qed.

(** [strtoll] on a string of decimal digits: no white space, no sign,
    every digit consumed, the value exact. *)
Lemma strtoll_digits (ds rest : list Z) :
  Forall (fun d => 0 <= d <= 9) ds -> ds <> [] ->
  digits_value ds <= llong_max ->
  strtoll (map digit_char ds ++ 0 :: rest) = (digits_value ds, length ds, 0).
Proof.
  intros Hds Hne Hmax.
  destruct ds as [| d ds]; [done |].
  pose proof Hds as Hall.
  apply Forall_cons in Hds as [Hd Hds'].
  unfold strtoll.
  assert (Hws : span_space (map digit_char (d :: ds) ++ 0 :: rest) = O).
  { cbn [map app span_space]. unfold isspace, digit_char.
    destruct (Z.leb_spec 9 (48 + d)), (Z.leb_spec (48 + d) 13), (Z.eqb_spec (48 + d) 32);
      simpl; try reflexivity; lia. }
  rewrite Hws, drop_0.
  assert (Hsg : span_sign (map digit_char (d :: ds) ++ 0 :: rest) = (false, O)).
  { cbn [map app span_sign]. unfold digit_char.
    destruct (Z.eqb_spec (48 + d) 45), (Z.eqb_spec (48 + d) 43); try reflexivity; lia. }
  rewrite Hsg. cbn [Nat.add]. rewrite drop_0.
  rewrite span_digits_digits by done.
  fold (digits_value (d :: ds)). cbn [length].
  destruct (Z.ltb_spec llong_max (digits_value (d :: ds))); [lia |].
  destruct (Z.ltb_spec (digits_value (d :: ds)) llong_min) as [Hlt | _]; [| reflexivity].
  pose proof (digits_value_nonneg (d :: ds) Hall).
  unfold llong_min in Hlt. lia.
Qed.

Lemma nth_middle_digits_rest (ds rest : list Z) :
  nth (length ds) (map digit_char ds ++ 0 :: rest) 0 = 0.
Proof.
  rewrite <- (length_map digit_char ds). apply nth_middle.
Qed.

Lemma skip_spaces_padding (k : nat) (l : list Z) :
  skip_spaces (replicate k 32 ++ l) = skip_spaces l.
Proof. induction k as [| k IH]; [reflexivity |]. simpl. exact IH. Qed.

(** [decatoi] on the digits of a number that fits in [long long]. *)
Lemma decatoi_digits (ds rest : list Z) (v0 : Z) :
  Forall (fun d => 0 <= d <= 9) ds -> ds <> [] -> (length ds <= 20)%nat ->
  digits_value ds <= llong_max ->
  decatoi (map digit_char ds ++ 0 :: rest) (Z.of_nat (length ds)) v0
  = (1, digits_value ds).
Proof.
  intros Hds Hne Hlen Hmax. unfold decatoi.
  destruct (Z.ltb_spec 20 (Z.of_nat (length ds))); [lia |].
  rewrite to_int_small by lia. rewrite Nat2Z.id.
  rewrite strncpy_bytes_digits by done.
  rewrite strtoll_digits by done.
  change ((0 =? EINVAL) || (0 =? ERANGE)) with false. cbv iota.
  rewrite to_int_small by lia. rewrite Z.eqb_refl. cbn [negb].
  rewrite nth_middle_digits_rest.
  reflexivity.
Qed.

(** C7. For [0 <= n < 2^32], the digits [numzcat] obtains for [n]
    ([fitoa] into a field of 11 bytes, then past the padding) are parsed
    by [decatoi] with result 1 and value [n]. *)
Theorem decimal_round_trip (n : Z) (b : list Z) (v0 : Z) :
  0 <= n < 2 ^ 32 ->
  length b = 12%nat ->
  exists p : list Z,
    numzcat_digits b n = Done p /\
    decatoi p (strlen p) v0 = (1, n).
Proof.
  intros Hn Hb.
  destruct (is_decimal_exists n) as [ds Hds]; [lia |].
  assert (Hlen : (length ds <= 10)%nat).
  { apply (is_decimal_length ds n 10 Hds); [lia |]. simpl. lia. }
  destruct (fitoa_run n 11 0 ds (Buffer b []) ltac:(simpl; lia) Hds)
    as (m' & Hrun & Hbytes).
  rewrite (proj2 (Nat.leb_le (length ds) 11)) in Hbytes by lia.
  cbn [bytes take app] in Hbytes.
  rewrite drop_ge in Hbytes by (simpl; lia).
  pose proof Hds as (Hdig & Hlead & Hval).
  pose proof (is_decimal_nonempty _ _ Hds) as Hne.
  exists (map digit_char ds ++ [0]). split.
  - unfold numzcat_digits. rewrite Hrun. simpl bind. rewrite Hbytes.
    rewrite take_0, app_nil_l, <- app_assoc, skip_spaces_padding.
    destruct ds as [| d ds]; [done |].
    apply Forall_cons in Hdig as [Hd _].
    cbn [map app skip_spaces]. unfold digit_char at 1.
    by destruct (Z.eqb_spec (48 + d) 32); [lia |].
  - unfold strlen. rewrite cstring_digits by done. rewrite length_map.
    rewrite decatoi_digits; try done; [by rewrite Hval | lia |].
    rewrite Hval. unfold llong_max. lia.
Qed.

Lemma decimal_round_trip_witness :
  exists p : list Z,
    numzcat_digits (replicate 12 0) 4294967295 = Done p /\
    decatoi p (strlen p) 0 = (1, 4294967295).
Proof.
  apply (decimal_round_trip 4294967295 (replicate 12 0) 0).
  - lia.
  - reflexivity.
Defined.

End Decatoi.

(** ** [decatoi] and white space *)

Section DecatoiSpace.
Import Aiutils.

(** C3. The slice [ 123] (a space, then three digits) is accepted:
    [strtoll] skips the leading space, all four bytes count as consumed,
    and [decatoi] returns 1 and stores 123. *)
Theorem decatoi_leading_space (v0 : Z) :
  decatoi [32; 49; 50; 51] 4 v0 = (1, 123).
Proof. reflexivity. Qed.

(** White space after the digits or between them is rejected, and
    [*value] is then left as it was. *)
Lemma decatoi_inner_space (v0 : Z) :
  decatoi [49; 50; 32; 51] 4 v0 = (0, v0) /\ decatoi [49; 50; 51; 32] 4 v0 = (0, v0).
Proof. split; reflexivity. Qed.

End DecatoiSpace.

(** ** Null destinations *)

Section NullDestination.
Import Aiutils.

(** C4. With a null [dest] and a capacity of at least 1,
    [replace_char_safe_copy] stores the terminator through the null
    pointer: the guard tests [dest_size > 0] only. *)
Theorem replace_char_safe_copy_null_dest
    (src : option (list Z)) (dest_size ch newch skipends : Z) (m : buffer) :
  1 <= dest_size ->
  replace_char_safe_copy NULL src dest_size ch newch skipends m = NullDeref.
Proof.
  intros H. unfold replace_char_safe_copy. cbn [is_null orb].
  destruct (Z.ltb_spec 0 dest_size); [reflexivity | lia].
Qed.

Lemma replace_char_safe_copy_null_dest_witness :
  replace_char_safe_copy NULL (Some [97]) 1 97 98 0 (Buffer [] []) = NullDeref.
Proof. apply replace_char_safe_copy_null_dest. lia. Defined.

(** [substring_safe_copy] guards the same store with [dest != NULL]:
    with a null [dest] it returns and has written nothing. *)
Lemma substring_safe_copy_null_dest
    (src : option (list Z)) (dest_size position length : Z) (m : buffer) :
  substring_safe_copy NULL src dest_size position length m = Done m.
Proof. reflexivity. Qed.

End NullDestination.

(** ** [substring_safe_copy] *)

Section Substring.
Import Aiutils Spec.

(** C2, as the code has it.  [substring_safe_copy(dst, "0123456789", 5,
    3, 4)] copies [min(4, 10 - 3, 5 - 1) = 4] bytes: whatever the five
    bytes of [dst] held, they become [3456] and the terminator. *)
Theorem substring_safe_copy_S3 (d0 d1 d2 d3 d4 : Z) (w : list nat) :
  substring_safe_copy (Ptr 0) (Some digits10) 5 3 4 (Buffer [d0; d1; d2; d3; d4] w)
  = Done (Buffer [51; 52; 53; 54; 0] ([4; 3; 2; 1; 0]%nat ++ w)).
Proof. reflexivity. Qed.

(** C2, as the claim has it, fails: the string left in [dst] is not
    [345]. *)
Lemma substring_safe_copy_S3_not_345 :
  exists m' : buffer,
    substring_safe_copy (Ptr 0) (Some digits10) 5 3 4 (Buffer [0; 0; 0; 0; 0] []) = Done m' /\
    string_at 0 m' = [51; 52; 53; 54] /\
    string_at 0 m' <> [51; 52; 53].
Proof.
  eexists. split; [reflexivity |]. split; [reflexivity | discriminate].
Qed.

End Substring.

(** ** [safe_gets]: the line reader *)

Section SafeGets.
Import Int Libc Aiutils.

(** A byte just stored is the byte read back. *)
Lemma load_after_store (p : ptr) (i : nat) (v : Z) (m m' : buffer) :
store p i v m = Done m' -> load p i m' = Done v.
Proof.
unfold store, load. destruct p as [| b]; [discriminate |].
destruct (Nat.ltb_spec (b + i) (length (bytes m))) as [Hlt | Hge]; [| discriminate].
intros [= <-]. cbn [bytes].
by rewrite list_lookup_insert_eq.
Qed.

(** The discarding loop is never reached: whenever [safe_gets] returns
  its buffer, the stream is where [fgets] left it. *)
Lemma safe_gets_never_drains (buf : ptr) (buf_size : Z) (st st' : list Z)
  (m m' : buffer) (p : ptr) :
safe_gets buf buf_size (Some st) m = Done (p, Some st', m') ->
p <> NULL ->
exists m1 : buffer, fgets buf (to_int buf_size) st m = Done (Some (st', m1)).
Proof.
unfold safe_gets. cbn [no_src src_string].
destruct (is_null buf || (buf_size =? 0) || false); [intros [= <- _ _]; done |].
destruct (fgets buf (to_int buf_size) st m) as [[[st1 m1] |] | |];
  simpl bind; try discriminate; [| intros [= <- _ _]; done].
destruct (strcspn buf [13; 10] m1) as [len | |]; simpl bind; try discriminate.
destruct (store buf len 0 m1) as [m2 | |] eqn:Hstore; simpl bind; try discriminate.
rewrite (load_after_store _ _ _ _ _ Hstore). simpl bind.
change (negb (0 =? 0)) with false. cbv iota.
destruct (Z.of_nat len =? size_dec buf_size); intros [= _ <- _] _; by exists m1.
Qed.

(** C1. A stream holding [abcdef], a line feed, [xyz] and a line feed,
  read with a buffer of 4 bytes: the first call fills the buffer with
  [abc] and leaves [def] and all that follows in the stream; the second
  call returns [def], the rest of the same physical line, not [xyz]. *)
Theorem safe_gets_long_line_not_discarded :
safe_gets (Ptr 0) 4 (Some [97; 98; 99; 100; 101; 102; 10; 120; 121; 122; 10])
          (Buffer [1; 1; 1; 1] [])
= Done (Ptr 0, Some [100; 101; 102; 10; 120; 121; 122; 10],
        Buffer [97; 98; 99; 0] [3; 3; 2; 1; 0]%nat) /\
safe_gets (Ptr 0) 4 (Some [100; 101; 102; 10; 120; 121; 122; 10])
          (Buffer [97; 98; 99; 0] [])
= Done (Ptr 0, Some [10; 120; 121; 122; 10],
        Buffer [100; 101; 102; 0] [3; 3; 2; 1; 0]%nat).
Proof. split; reflexivity. Qed.

End SafeGets.

(** ** More worked calls *)

Section MoreExamples.
Import Aiutils.

Example strbgw_path : strbgw [112; 97; 116; 104; 61; 47] [112; 97; 116; 104] = 1.
Proof. reflexivity. Qed.

Example lastN_hello_3 : lastN [104; 101; 108; 108; 111] 3 = [108; 108; 111].
Proof. reflexivity. Qed.

Example laststrstr_a_b_c : laststrstr (Some [97; 45; 98; 45; 99]) (Some [45]) = Some 3%nat.
Proof. reflexivity. Qed.

Example trim_safe_copy_hi :
  bytes <$> (match trim_safe_copy (Ptr 0) (Some [32; 32; 104; 105; 32; 32]) 16 98
                     (Buffer (replicate 16 1) []) with
             | Done m => Some m | _ => None end)
  = Some ([104; 105; 0; 32; 0; 32; 0] ++ replicate 9 1).
Proof. reflexivity. Qed.

Example remove_char_inplace_spaces :
  bytes <$> (match remove_char_inplace (Ptr 0) 32 (Buffer [97; 32; 98; 32; 0; 7] []) with
             | Done m => Some m | _ => None end)
  = Some [97; 98; 0; 32; 0; 7].
Proof. reflexivity. Qed.

Example uppercase_inplace_aBc :
  bytes <$> (match uppercase_inplace (Ptr 0) (Buffer [97; 66; 99; 49; 0; 97] []) with
             | Done m => Some m | _ => None end)
  = Some [65; 66; 67; 49; 0; 97].
Proof. reflexivity. Qed.

Example makelower_safe_copy_ABC :
  bytes <$> (match makelower_safe_copy (Ptr 0) (Some [65; 98; 67; 68]) 3
                     (Buffer [1; 1; 1; 1] []) with
             | Done m => Some m | _ => None end)
  = Some [97; 98; 0; 1].
Proof. reflexivity. Qed.

Example numzcat_total_42 :
  bytes <$> (match numzcat (replicate 12 0) (Ptr 0) 42 12
                     (Buffer ([116; 111; 116; 97; 108; 61; 0] ++ replicate 5 1) []) with
             | Done m => Some m | _ => None end)
  = Some ([116; 111; 116; 97; 108; 61; 52; 50; 0] ++ replicate 3 1).
Proof. reflexivity. Qed.

End MoreExamples.

(** ** [strbgw]: prefix test *)

Section Strbgw.
Import Aiutils.

Lemma strbgw_cons (c : Z) (str sub : list Z) :
  c <> 0 ->
  strbgw str (c :: sub) = if peek str =? c then strbgw (advance 1 str) sub else 0.
Proof.
  intros Hc. cbn [strbgw]. destruct (Z.eqb_spec c 0); [done |].
  by destruct (peek str =? c).
Qed.

(** [strbgw] answers 1 exactly when the string [sub] is a prefix of the
    string [str], and 0 otherwise; an empty [sub] is a prefix of every
    string. *)
Theorem strbgw_prefix (sub : list Z) :
  forall str : list Z,
    (strbgw str sub = 1 <-> cstring sub `prefix_of` cstring str) /\
    (strbgw str sub = 1 \/ strbgw str sub = 0).
Proof.
  induction sub as [| c sub IH]; intros str.
  - split; [| by left]. split; [intros _; apply prefix_nil | done].
  - destruct (Z.eq_dec c 0) as [-> | Hc].
    { split; [| by left]. split; [intros _; apply prefix_nil | done]. }
    rewrite strbgw_cons by done. rewrite (cstring_cons c sub) by done.
    destruct str as [| x str].
    + cbn [peek hd cstring]. destruct (Z.eqb_spec 0 c); [lia |].
      split; [| by right]. split; [done |]. intros H. by apply prefix_nil_not in H.
    + cbn [peek hd advance]. change (drop 1 (x :: str)) with str.
      destruct (Z.eqb_spec x c) as [-> | Hx].
      * rewrite (cstring_cons c str) by done.
        destruct (IH str) as [Hiff Hcode]. split; [| done].
        rewrite Hiff. split; [apply prefix_cons | apply prefix_cons_inv_2].
      * split; [| by right]. split; [done |]. intros H.
        destruct (Z.eq_dec x 0) as [-> | Hx0].
        -- by apply prefix_nil_not in H.
        -- rewrite (cstring_cons x str) in H by done.
           apply prefix_cons_inv_1 in H. congruence.
Qed.

End Strbgw.

(** ** [strcmpii]: equality up to case *)

Section StrcmpiiEqual.
Import Libc Aiutils.

(** [strcmpii a b] is zero exactly when the two strings have the same
    length and agree byte for byte after folding to lower case. *)
Theorem strcmpii_zero_iff (a : list Z) :
  forall b : list Z,
    strcmpii a b = 0 <-> map tolower (cstring a) = map tolower (cstring b).
Proof.
  induction a as [| c a IH]; intros b.
  - rewrite strcmpii_nil. destruct b as [| x b]; [done |].
    cbn [peek hd]. destruct (Z.eq_dec x 0) as [-> | Hx]; [done |].
    rewrite (cstring_cons x b) by done. cbn [cstring map].
    pose proof (tolower_zero x). split; [lia | discriminate].
  - rewrite strcmpii_cons. destruct b as [| x b].
    + cbn [peek hd]. change (tolower 0) with 0. change (cstring []) with (@nil Z).
      pose proof (tolower_zero c) as Hc0.
      destruct (Z.eqb_spec (tolower c) 0) as [Hc | Hc].
      * apply Hc0 in Hc. subst c. done.
      * rewrite (cstring_cons c a) by tauto. cbn [map]. split; [lia | discriminate].
    + cbn [peek hd advance]. change (drop 1 (x :: b)) with b.
      pose proof (tolower_zero c) as Hc0. pose proof (tolower_zero x) as Hx0.
      destruct (Z.eqb_spec (tolower c) (tolower x)) as [Heq | Hne].
      * destruct (Z.eqb_spec c 0) as [-> | Hc].
        -- assert (x = 0) as -> by (apply Hx0; rewrite <- Heq; reflexivity). done.
        -- assert (x <> 0) by (intros ->; apply Hc, Hc0; rewrite Heq; reflexivity).
           rewrite (cstring_cons c a), (cstring_cons x b) by done. cbn [map].
           rewrite IH, Heq. split; [by intros -> | by intros [= ->]].
      * split; [lia |]. intros H. exfalso.
        destruct (Z.eq_dec c 0) as [-> | Hc], (Z.eq_dec x 0) as [-> | Hx]; try done.
        -- rewrite (cstring_cons x b) in H by done. discriminate.
        -- rewrite (cstring_cons c a) in H by done. discriminate.
        -- rewrite (cstring_cons c a), (cstring_cons x b) in H by done.
           cbn [map] in H. by injection H.
Qed.

End StrcmpiiEqual.

(** ** Strings inside read-only storage *)

Section Cstrings.
Import Libc.

Lemma cstring_nonzero (s : list Z) : Forall (fun c => c <> 0) (cstring s).
Proof.
  induction s as [| c s IH]; [constructor |].
  simpl. destruct (Z.eqb_spec c 0); [constructor | by constructor].
Qed.

(** A list of non-zero bytes followed by the terminator is the string. *)
Lemma cstring_app_zero (l rest : list Z) :
  Forall (fun c => c <> 0) l -> cstring (l ++ 0 :: rest) = l.
Proof.
  induction 1 as [| c l Hc _ IH]; [reflexivity |].
  cbn [app]. rewrite cstring_cons by done. by rewrite IH.
Qed.

Lemma cstring_nonzero_id (l : list Z) :
  Forall (fun c => c <> 0) l -> cstring l = l.
Proof.
  induction 1 as [| c l Hc _ IH]; [reflexivity |].
  rewrite cstring_cons by done. by rewrite IH.
Qed.

Lemma cstring_idemp (s : list Z) : cstring (cstring s) = cstring s.
Proof. apply cstring_nonzero_id, cstring_nonzero. Qed.

(** Moving the pointer inside the string drops that many bytes of it. *)
Lemma cstring_drop (k : nat) :
  forall s : list Z,
    (k <= length (cstring s))%nat -> cstring (drop k s) = drop k (cstring s).
Proof.
  induction k as [| k IH]; intros s Hk; [by rewrite !drop_0 |].
  destruct s as [| c s]; [simpl in Hk; lia |].
  destruct (Z.eq_dec c 0) as [-> | Hc]; [simpl in Hk; lia |].
  rewrite cstring_cons in * by done. cbn [drop length] in *.
  apply IH. lia.
Qed.

(** The bytes [strncpy] writes when the string is long enough are the
    first [n] bytes of the string. *)
Lemma strncpy_bytes_take (n : nat) :
  forall s : list Z,
    (n <= length (cstring s))%nat -> strncpy_bytes s n = take n (cstring s).
Proof.
  induction n as [| n IH]; intros s Hn; [reflexivity |].
  destruct s as [| c s]; [simpl in Hn; lia |].
  destruct (Z.eq_dec c 0) as [-> | Hc]; [simpl in Hn; lia |].
  rewrite cstring_cons in * by done. cbn [strncpy_bytes take length] in *.
  destruct (Z.eqb_spec c 0); [done |]. rewrite IH by lia. reflexivity.
Qed.

End Cstrings.

(** ** [lastN]: the tail of a string *)

Section LastN.
Import Libc Aiutils.

(** [lastN(s, n)] points at a suffix of the string [s] whose length is
    the smaller of [n] and the length of [s]: the last [n] bytes, or the
    whole string when it is shorter. *)
Theorem lastN_suffix (s : list Z) (n : Z) :
  0 <= n ->
  cstring (lastN s n) `suffix_of` cstring s /\
  length (cstring (lastN s n)) = Nat.min (Z.to_nat n) (length (cstring s)).
Proof.
  intros Hn. unfold lastN, strlen, advance.
  destruct (Z.ltb_spec (Z.of_nat (length (cstring s))) n) as [Hlt | Hge].
  - split; [done | lia].
  - rewrite cstring_drop by lia. split; [apply suffix_drop |].
    rewrite length_drop. lia.
Qed.

Lemma lastN_suffix_witness :
  cstring (lastN [104; 101; 108; 108; 111] 3) `suffix_of` cstring [104; 101; 108; 108; 111] /\
  length (cstring (lastN [104; 101; 108; 108; 111] 3))
  = Nat.min (Z.to_nat 3) (length (cstring [104; 101; 108; 108; 111])).
Proof. apply lastN_suffix. lia. Defined.

End LastN.

(** ** [hexatoi]: return codes and exact values *)

Section HexatoiMore.
Import Int Aiutils Spec.

Lemma hex_digit_range (c d : Z) : hex_digit c = Some d -> 0 <= d < 16.
Proof. unfold hex_digit. intros H. by_ranges; inversion H; lia. Qed.



Lemma lor_digit (v d : Z) : 0 <= v -> 0 <= d < 16 -> Z.lor (v * 16) d = v * 16 + d.
Proof.
  intros Hv Hd.
  assert (Hland : Z.land (v * 16) d = 0).
  { change 16 with (2 ^ 4). rewrite <- Z.shiftl_mul_pow2 by lia.
    apply Z.bits_inj'. intros n Hn. rewrite Z.land_spec, Z.bits_0.
    destruct (Z_lt_le_dec n 4) as [Hlow | Hhigh].
    - by rewrite Z.shiftl_spec_low.
    - destruct (Z.eq_dec d 0) as [-> | Hd0]; [by rewrite Z.bits_0, andb_false_r |].
      rewrite (Z.bits_above_log2 d n), andb_false_r; [done | lia |].
      assert (Z.log2 d < 4) by (apply Z.log2_lt_pow2; [lia | simpl; lia]). lia. }
  rewrite <- Z.lxor_lor by done. symmetry. by apply Z.add_nocarry_lxor.
Qed.

Lemma shl64_small (v : Z) : 0 <= v < 2 ^ 59 -> shl64 v 4 = v * 16.
Proof.
  intros Hv. unfold shl64, wrap. rewrite Z.shiftl_mul_pow2 by lia.
  change (2 ^ 4) with 16. change (2 ^ (64 - 1)) with (2 ^ 63).
  rewrite Z.mod_small; lia.
Qed.

(** On hex digits alone and while the value stays below [2 ^ 59], the
    loop computes the base-16 value without any wrap-around. *)
Lemma hexatoi_loop_exact (s : list Z) :
  forall v : Z,
    forallb is_hex_digit s = true ->
    0 <= v -> (v + 1) * 16 ^ Z.of_nat (length s) <= 2 ^ 60 ->
    hexatoi_loop s v 0 0 = (0, fold_left (fun v d => v * 16 + d) (hex_digits s) v) /\
    0 <= fold_left (fun v d => v * 16 + d) (hex_digits s) v
      < (v + 1) * 16 ^ Z.of_nat (length s).
Proof.
  induction s as [| c s IH]; intros v Hs Hv Hbound.
  - cbn [length hex_digits fold_left hexatoi_loop]. change (hex_digits []) with (@nil Z).
    cbn [fold_left]. split; [reflexivity |]. simpl. lia.
  - cbn [forallb] in Hs. apply andb_true_iff in Hs as [Hc Hs].
    unfold is_hex_digit in Hc. destruct (hex_digit c) as [d |] eqn:Hd; [| discriminate].
    pose proof (hex_digit_range c d Hd) as Hrange.
    rewrite (hexatoi_loop_digit c d) by done. rewrite hex_digits_cons, Hd. cbn [fold_left].
    cbn [length] in Hbound. rewrite Nat2Z.inj_succ, Z.pow_succ_r in Hbound by lia.
    assert (Hpow : 1 <= 16 ^ Z.of_nat (length s)).
    { pose proof (Z.pow_pos_nonneg 16 (Z.of_nat (length s))). lia. }
    assert (Hv59 : v < 2 ^ 59) by nia.
    rewrite shl64_small by lia. rewrite lor_digit by lia.
    assert (Hstep : (v * 16 + d + 1) * 16 ^ Z.of_nat (length s)
                    <= (v + 1) * (16 * 16 ^ Z.of_nat (length s))).
    { rewrite Z.mul_assoc. apply Z.mul_le_mono_nonneg_r; lia. }
    destruct (IH (v * 16 + d) Hs) as [Hrun Hval]; [lia | lia |].
    split; [done |]. cbn [length]. rewrite Nat2Z.inj_succ, Z.pow_succ_r by lia. lia.
Qed.

(** On a slice of at most 15 hex digits, [hexatoi] returns 0 and the
    exact base-16 value of the digits, a number from 0 to
    [16 ^ length - 1]: nothing wraps. *)
Theorem hexatoi_exact_value (s : list Z) (v0 : Z) :
  forallb is_hex_digit s = true ->
  (length s <= 15)%nat ->
  hexatoi s (Z.of_nat (length s)) v0 = (0, hex_value (hex_digits s)) /\
  0 <= hex_value (hex_digits s) < 16 ^ Z.of_nat (length s).
Proof.
  intros Hs Hlen. rewrite hexatoi_whole. unfold hex_value.
  destruct (hexatoi_loop_exact s 0 Hs) as [Hrun Hval]; [lia | | split; [done | lia]].
  rewrite Z.add_0_l, Z.mul_1_l.
  transitivity (16 ^ 15); [apply Z.pow_le_mono_r; lia | by vm_compute].
Qed.

Lemma hexatoi_exact_value_witness :
  hexatoi [55; 102; 70; 48] (Z.of_nat (length [55; 102; 70; 48])) 9 = (0, 32752) /\
  0 <= 32752 < 16 ^ Z.of_nat (length [55; 102; 70; 48]).
Proof. apply (hexatoi_exact_value [55; 102; 70; 48] 9); [reflexivity | simpl; lia]. Defined.

End HexatoiMore.

(** ** [decatoi]: sign and range *)

Section DecatoiRange.
Import Int Libc Aiutils Spec.

Lemma digit_char_not_space (d : Z) : 0 <= d <= 9 -> isspace (digit_char d) = false.
Proof. intros Hd. unfold isspace, digit_char. by_ranges. Qed.

Lemma digit_char_not_sign (d : Z) (l : list Z) :
  0 <= d <= 9 -> span_sign (digit_char d :: l) = (false, O).
Proof. intros Hd. unfold span_sign, digit_char. by_ranges. Qed.

(** [strtoll] on an optional sign followed by digits: every byte is
    consumed; the value is exact when it fits, clamped with [ERANGE]
    when it does not. *)
Lemma strtoll_signed (sign ds rest : list Z) :
  sign = [] \/ sign = [43] \/ sign = [45] ->
  Forall (fun d => 0 <= d <= 9) ds -> ds <> [] ->
  strtoll (sign ++ map digit_char ds ++ 0 :: rest) =
  let r := if hd 0 sign =? 45 then - digits_value ds else digits_value ds in
  let e := (length sign + length ds)%nat in
  if llong_max <? r then (llong_max, e, ERANGE)
  else if r <? llong_min then (llong_min, e, ERANGE)
  else (r, e, 0).
Proof.
  intros Hsign Hds Hne.
  destruct ds as [| d ds]; [done |].
  pose proof Hds as Hall. apply Forall_cons in Hds as [Hd _].
  unfold strtoll.
  destruct Hsign as [-> | [-> | ->]].
  - cbn [app map span_space]. rewrite digit_char_not_space by done.
    rewrite drop_0, digit_char_not_sign by done. cbn [Nat.add]. rewrite drop_0.
    change (digit_char d :: map digit_char ds ++ 0 :: rest)
      with (map digit_char (d :: ds) ++ 0 :: rest).
    rewrite span_digits_digits by done. reflexivity.
  - cbn [app span_space]. change (isspace 43) with false. cbv iota.
    rewrite drop_0. cbn [span_sign]. change (43 =? 45) with false.
    change (43 =? 43) with true. cbv iota. cbn [Nat.add skipn].
    rewrite drop_0, span_digits_digits by done. reflexivity.
  - cbn [app span_space]. change (isspace 45) with false. cbv iota.
    rewrite drop_0. cbn [span_sign]. change (45 =? 45) with true. cbv iota.
    cbn [Nat.add skipn].
    rewrite drop_0, span_digits_digits by done. reflexivity.
Qed.

(** [decatoi] on an optional sign followed by at least one digit, 20
    bytes at most: when the signed value fits in 64 bits the result is 1
    and the value; when it does not, the result is 0 and [*value] keeps
    what it held.  Leading zeros are accepted. *)
Theorem decatoi_signed_decimal (sign ds : list Z) (v0 : Z) :
  sign = [] \/ sign = [43] \/ sign = [45] ->
  Forall (fun d => 0 <= d <= 9) ds -> ds <> [] ->
  (length sign + length ds <= 20)%nat ->
  decatoi (sign ++ map digit_char ds) (Z.of_nat (length sign + length ds)) v0 =
  let x := if hd 0 sign =? 45 then - digits_value ds else digits_value ds in
  if (llong_min <=? x) && (x <=? llong_max) then (1, x) else (0, v0).
Proof.
  intros Hsign Hds Hne Hlen. unfold decatoi.
  destruct (Z.ltb_spec 20 (Z.of_nat (length sign + length ds))); [lia |].
  rewrite to_int_small by lia. rewrite Nat2Z.id.
  assert (Hnz : Forall (fun c => c <> 0) (sign ++ map digit_char ds)).
  { apply Forall_app. split.
    - destruct Hsign as [-> | [-> | ->]];
        [constructor | constructor; [lia | constructor] | constructor; [lia | constructor]].
    - apply Forall_fmap. eapply Forall_impl; [exact Hds |].
      intros d Hd. unfold compose, digit_char. cbv beta in *. lia. }
  rewrite strncpy_bytes_take by (rewrite cstring_nonzero_id, length_app, length_map by done; lia).
  rewrite cstring_nonzero_id by done.
  rewrite take_ge by (rewrite length_app, length_map; lia).
  rewrite <- app_assoc. rewrite strtoll_signed by done. cbv zeta.
  set (x := if hd 0 sign =? 45 then - digits_value ds else digits_value ds).
  destruct (Z.ltb_spec llong_max x) as [Hhi | Hhi].
  { destruct (Z.leb_spec x llong_max); [lia |]. by rewrite andb_false_r. }
  destruct (Z.ltb_spec x llong_min) as [Hlo | Hlo].
  { destruct (Z.leb_spec llong_min x); [lia |]. reflexivity. }
  destruct (Z.leb_spec llong_min x); [| lia].
  destruct (Z.leb_spec x llong_max); [| lia].
  change ((0 =? EINVAL) || (0 =? ERANGE)) with false. cbv iota.
  rewrite to_int_small by lia. rewrite Z.eqb_refl. cbn [negb andb].
  rewrite app_assoc.
  replace (length sign + length ds)%nat with (length (sign ++ map digit_char ds))
    by (rewrite length_app, length_map; lia).
  rewrite nth_middle. reflexivity.
Qed.

Lemma decatoi_signed_decimal_witness :
  decatoi ([45] ++ map digit_char [0; 4; 2]) (Z.of_nat (length [45] + length [0; 4; 2])) 7
  = (1, -42) /\
  decatoi ([] ++ map digit_char [9; 9; 9; 9; 9; 9; 9; 9; 9; 9; 9; 9; 9; 9; 9; 9; 9; 9; 9; 9])
          (Z.of_nat (length (@nil Z) + 20)) 7
  = (0, 7).
Proof.
  split.
  - apply (decatoi_signed_decimal [45] [0; 4; 2] 7); [by right; right | | done | simpl; lia].
    repeat constructor; lia.
  - apply (decatoi_signed_decimal [] (replicate 20 9) 7); [by left | | done | simpl; lia].
    repeat constructor; lia.
Defined.

End DecatoiRange.

(** ** [strzcat] and [numzcat]: bounded concatenation *)

Section Strzcat.
Import Int Libc Aiutils Spec.

(** An object that holds a terminator splits into the string, the
    terminator and the rest. *)
Lemma cstring_split (l : list Z) :
  (length (cstring l) < length l)%nat ->
  l = cstring l ++ 0 :: drop (S (length (cstring l))) l.
Proof.
  induction l as [| c l IH]; [simpl; lia |].
  destruct (Z.eq_dec c 0) as [-> | Hc]; [reflexivity |].
  rewrite cstring_cons by done. cbn [length app drop]. intros H.
  f_equal. apply IH. lia.
Qed.

Lemma strzcat_scan_spec (dstr : list Z) :
  forall (tail : list Z) (i : nat) (dsize : Z),
    Forall (fun c => c <> 0) dstr ->
    Z.of_nat (length dstr) < dsize < size_max ->
    strzcat_scan (dstr ++ 0 :: tail) i dsize
    = Done ((i + length dstr)%nat, dsize - Z.of_nat (length dstr)).
Proof.
  induction dstr as [| c dstr IH]; intros tail i dsize Hnz Hd.
  - cbn [app strzcat_scan length]. simpl Z.eqb. cbv iota.
    f_equal. f_equal; [lia | simpl; lia].
  - apply Forall_cons in Hnz as [Hc Hnz]. cbn [app strzcat_scan length] in *.
    destruct (Z.eqb_spec c 0); [done |].
    rewrite size_dec_pos by lia. rewrite IH by (done || lia).
    f_equal. f_equal; lia.
Qed.

(** The run of [strzcat] on a destination that holds a string shorter
    than the capacity. *)
Lemma strzcat_run (s : list Z) (cap : Z) (b : nat) (m : buffer) :
  2 <= cap < size_max ->
  (b + Z.to_nat cap <= length (bytes m))%nat ->
  Z.of_nat (length (string_at b m)) < cap ->
  let dstr := string_at b m in
  let k := Nat.min (length (cstring s)) (Z.to_nat cap - 1 - length dstr) in
  strzcat (Ptr b) s cap m
  = Done (Buffer (take b (bytes m) ++ dstr ++ take k (cstring s) ++
                  0 :: drop (b + length dstr + k + 1) (bytes m))
                 (rev (seq (b + length dstr) (S k)) ++ written m)).
Proof.
  intros Hcap Hlen HL. cbv zeta.
  assert (Hnz : Forall (fun c => c <> 0) (string_at b m)) by apply cstring_nonzero.
  assert (Hsplit : drop b (bytes m)
                   = string_at b m ++ 0 :: drop (S (length (string_at b m))) (drop b (bytes m))).
  { apply cstring_split. unfold string_at in HL. rewrite length_drop. lia. }
  remember (string_at b m) as dstr eqn:Hdstr.
  set (k := Nat.min (length (cstring s)) (Z.to_nat cap - 1 - length dstr)).
  set (tail := drop (S (length dstr)) (drop b (bytes m))) in Hsplit.
  assert (Htail : (Z.to_nat cap - length dstr <= S (length tail))%nat).
  { assert (Hl : length (drop b (bytes m)) = (length dstr + S (length tail))%nat).
    { rewrite Hsplit at 1. rewrite length_app. reflexivity. }
    rewrite length_drop in Hl. lia. }
  assert (Hk : (k < S (length tail))%nat) by (unfold k; lia).
  destruct (lookup_lt_is_Some_2 (0 :: tail) k) as [o Ho]; [simpl; lia |].
  assert (Hbytes : bytes m = (take b (bytes m) ++ dstr) ++ take k (0 :: tail)
                             ++ o :: drop (S k) (0 :: tail)).
  { rewrite <- (take_drop b (bytes m)) at 1. rewrite Hsplit at 1.
    rewrite <- app_assoc. do 2 f_equal.
    by rewrite (take_drop_middle (0 :: tail) k o Ho). }
  unfold strzcat. destruct (Z.leb_spec cap 1); [lia |].
  rewrite Hsplit. rewrite strzcat_scan_spec by (done || lia). simpl bind. cbn [fst snd].
  rewrite <- (buffer_eta m) at 1. rewrite Hbytes at 1.
  assert (Hold : length (take k (0 :: tail)) = k) by (rewrite length_take; simpl; lia).
  rewrite (copy_loop_spec s b (length dstr) (cap - Z.of_nat (length dstr))
             (take b (bytes m) ++ dstr) (take k (0 :: tail))); cycle 1.
  { lia. }
  { rewrite length_app, length_take. lia. }
  { rewrite Hold. unfold k. lia. }
  simpl bind. cbn [fst snd]. rewrite Hold.
  rewrite (app_assoc (take b (bytes m) ++ dstr)).
  rewrite store_inside; cycle 1.
  { rewrite !length_app, !length_take. unfold k. lia. }
  f_equal. f_equal.
  - rewrite <- !app_assoc. do 4 f_equal.
    change (0 :: tail) with ([0] ++ tail). unfold tail.
    destruct k as [| k'].
    + rewrite !drop_drop. f_equal. lia.
    + cbn [app drop]. rewrite !drop_drop. f_equal. lia.
  - rewrite seq_S, rev_app_distr. cbn [rev app]. f_equal. lia.
Qed.

End Strzcat.

Section StrzcatTheorems.
Import Int Libc Aiutils Spec.

Lemma take_cstring (l : list Z) : take (length (cstring l)) l = cstring l.
Proof.
  induction l as [| c l IH]; [reflexivity |].
  destruct (Z.eq_dec c 0) as [-> | Hc]; [reflexivity |].
  rewrite cstring_cons by done. cbn [length take]. by rewrite IH.
Qed.

Lemma take_string_at (b : nat) (m : buffer) :
  (b <= length (bytes m))%nat ->
  take (b + length (string_at b m)) (bytes m) = take b (bytes m) ++ string_at b m.
Proof.
  intros Hb. rewrite <- (take_drop b (bytes m)) at 1.
  rewrite take_app_add' by (rewrite length_take; lia).
  f_equal. apply take_cstring.
Qed.

(** When [d] holds a string shorter than [cap], [strzcat(d, s, cap)]
    appends the longest prefix of [s] that keeps the string within
    [cap - 1] bytes and terminates it; the bytes before the old
    terminator and after the new one keep their content, and every
    offset written is below [cap]. *)
Theorem strzcat_append (s : list Z) (cap : Z) (b : nat) (m : buffer) :
  2 <= cap < size_max ->
  (b + Z.to_nat cap <= length (bytes m))%nat ->
  Z.of_nat (length (string_at b m)) < cap ->
  let dstr := string_at b m in
  let k := Nat.min (length (cstring s)) (Z.to_nat cap - 1 - length dstr) in
  exists m' : buffer,
    strzcat (Ptr b) s cap m = Done m' /\
    string_at b m' = dstr ++ take k (cstring s) /\
    Z.of_nat (length (string_at b m')) < cap /\
    bytes m' = take (b + length dstr) (bytes m) ++ take k (cstring s) ++
               0 :: drop (b + length dstr + k + 1) (bytes m) /\
    written m' = rev (seq (b + length dstr) (S k)) ++ written m /\
    Forall (fun i => (i < b + Z.to_nat cap)%nat) (seq (b + length dstr) (S k)).
Proof.
  intros Hcap Hlen HL dstr k.
  pose proof (strzcat_run s cap b m Hcap Hlen HL) as Hrun. cbv zeta in Hrun.
  fold dstr in Hrun. fold k in Hrun.
  assert (Hnz : Forall (fun c => c <> 0) (dstr ++ take k (cstring s))).
  { apply Forall_app. split; [apply cstring_nonzero |].
    apply Forall_take, cstring_nonzero. }
  assert (Hpre : take (b + length dstr) (bytes m) = take b (bytes m) ++ dstr).
  { apply take_string_at. lia. }
  eexists. split; [exact Hrun |]. cbn [bytes written].
  assert (Hstr : string_at b
            (Buffer (take b (bytes m) ++ dstr ++ take k (cstring s) ++
                     0 :: drop (b + length dstr + k + 1) (bytes m))
                    (rev (seq (b + length dstr) (S k)) ++ written m))
          = dstr ++ take k (cstring s)).
  { unfold string_at at 1. cbn [bytes].
    rewrite drop_app_length' by (rewrite length_take; lia).
    rewrite app_assoc. by apply cstring_app_zero. }
  split; [exact Hstr |]. split; [| split; [| split; [done |]]].
  - rewrite Hstr, length_app, length_take. unfold k, dstr. lia.
  - rewrite Hpre. by rewrite <- app_assoc.
  - apply Forall_forall. intros i Hi. apply elem_of_seq in Hi. unfold k, dstr in Hi. lia.
Qed.

Lemma strzcat_append_witness :
  exists m' : buffer,
    strzcat (Ptr 0) [99; 100; 101] 5 (Buffer [97; 98; 0; 1; 1; 1] []) = Done m' /\
    string_at 0 m' = [97; 98; 99; 100].
Proof.
  destruct (strzcat_append [99; 100; 101] 5 0 (Buffer [97; 98; 0; 1; 1; 1] []))
    as (m' & Hrun & Hstr & _); [unfold size_max; lia | simpl; lia | simpl; lia |].
  exists m'. split; [exact Hrun | exact Hstr].
Defined.

(** The digits [numzcat] finds in its local array. *)
Lemma numzcat_digits_run (b0 : list Z) (n : Z) (ds : list Z) :
  length b0 = 12%nat -> n < 2 ^ 32 -> is_decimal ds n ->
  numzcat_digits b0 n = Done (map digit_char ds ++ [0]).
Proof.
  intros Hb Hn Hds.
  assert (Hlen : (length ds <= 10)%nat).
  { apply (is_decimal_length ds n 10 Hds); [lia |]. simpl. lia. }
  destruct (fitoa_run n 11 0 ds (Buffer b0 []) ltac:(simpl; lia) Hds)
    as (m' & Hrun & Hbytes).
  rewrite (proj2 (Nat.leb_le (length ds) 11)) in Hbytes by lia.
  cbn [bytes] in Hbytes. rewrite take_0, app_nil_l in Hbytes.
  rewrite drop_ge in Hbytes by (simpl; lia).
  unfold numzcat_digits. rewrite Hrun. simpl bind. rewrite Hbytes.
  rewrite <- app_assoc, skip_spaces_padding.
  pose proof Hds as (Hdig & _ & _).
  destruct ds as [| d ds]; [by apply is_decimal_nonempty in Hds |].
  apply Forall_cons in Hdig as [Hd _].
  cbn [map app skip_spaces]. unfold digit_char at 1.
  by destruct (Z.eqb_spec (48 + d) 32); [lia |].
Qed.

(** [numzcat(d, n, cap)] appends the decimal digits of [n] to the string
    in [d] under the bound of [strzcat]: as many leading digits as keep
    the string within [cap - 1] bytes. *)
Theorem numzcat_append (b0 : list Z) (n : Z) (ds : list Z) (cap : Z) (b : nat) (m : buffer) :
  length b0 = 12%nat ->
  0 <= n < 2 ^ 32 -> is_decimal ds n ->
  2 <= cap < size_max ->
  (b + Z.to_nat cap <= length (bytes m))%nat ->
  Z.of_nat (length (string_at b m)) < cap ->
  let dstr := string_at b m in
  let k := Nat.min (length ds) (Z.to_nat cap - 1 - length dstr) in
  exists m' : buffer,
    numzcat b0 (Ptr b) n cap m = Done m' /\
    string_at b m' = dstr ++ take k (map digit_char ds) /\
    bytes m' = take (b + length dstr) (bytes m) ++ take k (map digit_char ds) ++
               0 :: drop (b + length dstr + k + 1) (bytes m).
Proof.
  intros Hb0 Hn Hds Hcap Hlen HL dstr k.
  pose proof Hds as (Hdig & _ & _).
  assert (Hcs : cstring (map digit_char ds ++ [0]) = map digit_char ds)
    by (by apply cstring_digits).
  pose proof (strzcat_run (map digit_char ds ++ [0]) cap b m Hcap Hlen HL) as Hrun.
  cbv zeta in Hrun. rewrite Hcs, length_map in Hrun. fold dstr in Hrun. fold k in Hrun.
  unfold numzcat. rewrite (numzcat_digits_run b0 n ds) by (done || lia). simpl bind.
  eexists. split; [exact Hrun |]. cbn [bytes]. split.
  - unfold string_at at 1. cbn [bytes].
    rewrite drop_app_length' by (rewrite length_take; lia).
    rewrite app_assoc. apply cstring_app_zero.
    apply Forall_app. split; [apply cstring_nonzero |].
    apply Forall_take. rewrite <- Hcs. apply cstring_nonzero.
  - unfold dstr. rewrite take_string_at by lia. by rewrite <- app_assoc.
Qed.

Lemma numzcat_append_witness :
  exists m' : buffer,
    numzcat (replicate 12 0) (Ptr 0) 42 12
            (Buffer ([116; 111; 116; 97; 108; 61; 0] ++ replicate 5 1) []) = Done m' /\
    string_at 0 m' = [116; 111; 116; 97; 108; 61; 52; 50].
Proof.
  destruct (numzcat_append (replicate 12 0) 42 [4; 2] 12 0
              (Buffer ([116; 111; 116; 97; 108; 61; 0] ++ replicate 5 1) []))
    as (m' & Hrun & Hstr & _).
  - reflexivity.
  - lia.
  - split; [repeat constructor; lia | split; [right; by exists 4, [2] | reflexivity]].
  - unfold size_max. lia.
  - simpl. lia.
  - simpl. lia.
  - exists m'. split; [exact Hrun | exact Hstr].
Defined.

End StrzcatTheorems.

(** ** [makelower_safe_copy]: bounded copy in lower case *)

Section Makelower.
Import Int Libc Aiutils Spec.

Lemma to_uchar_char (c : Z) :
  -128 <= c <= 255 -> (0 <= c -> to_uchar c = c) /\ (c < 0 -> to_uchar c = c + 256).
Proof.
  intros Hc. unfold to_uchar. split; intros H.
  - apply Z.mod_small. lia.
  - symmetry. apply (Z.mod_unique_pos c 256 (-1) (c + 256)); lia.
Qed.

Lemma to_char_ascii (x : Z) : 0 <= x < 128 -> to_char x = x.
Proof.
  intros Hx. unfold to_char, wrap. change (2 ^ (8 - 1)) with 128. change (2 ^ 8) with 256.
  rewrite Z.mod_small; lia.
Qed.

(** What the loop stores for a byte [c], on bytes in the range of a
    [char]: the ASCII lower-case folding. *)
Lemma lower_byte (c : Z) :
  -128 <= c <= 255 ->
  (if isupper (to_uchar c) then to_char (tolower (to_uchar c)) else c) = tolower c.
Proof.
  intros Hc. destruct (to_uchar_char c Hc) as [Hpos Hneg].
  unfold isupper, tolower.
  destruct (Z_lt_le_dec c 0) as [Hlt | Hge].
  - rewrite (Hneg Hlt). by_ranges.
  - rewrite (Hpos Hge). by_ranges. apply to_char_ascii. lia.
Qed.

Lemma lower_byte_nonzero (c : Z) :
  c <> 0 -> (if isupper (to_uchar c) then to_char (tolower (to_uchar c)) else c) <> 0.
Proof.
  intros Hc. unfold isupper, tolower.
  destruct (Z.leb_spec 65 (to_uchar c)), (Z.leb_spec (to_uchar c) 90); cbn [andb]; try done.
  rewrite to_char_ascii; lia.
Qed.

(** The loop of [makelower_safe_copy] is the copy loop of [strzcpy] on
    the folded string. *)
Lemma makelower_loop_copy (s : list Z) :
  forall (d : ptr) (i : nat) (dsize : Z) (m : buffer),
    makelower_loop d i s dsize m
    = copy_loop d i
        (map (fun c => if isupper (to_uchar c) then to_char (tolower (to_uchar c)) else c)
             (cstring s))
        dsize m.
Proof.
  induction s as [| c s IH]; intros d i dsize m; [reflexivity |].
  cbn [makelower_loop]. destruct (Z.eqb_spec c 0) as [-> | Hc]; [reflexivity |].
  rewrite cstring_cons by done. cbn [map copy_loop].
  pose proof (lower_byte_nonzero c Hc) as Hl.
  destruct (Z.eqb_spec (if isupper (to_uchar c) then to_char (tolower (to_uchar c)) else c) 0);
    [done |].
  assert (Hdec : 0 <= size_dec dsize).
  { unfold size_dec, size_max. apply Z.mod_pos_bound. lia. }
  destruct (Z.ltb_spec 0 (size_dec dsize)), (Z.eqb_spec (size_dec dsize) 0);
    cbn [negb]; try lia; [| reflexivity].
  destruct (store d i _ m) as [m' | |]; simpl bind; [apply IH | reflexivity | reflexivity].
Qed.

(** [makelower_safe_copy(dest, src, cap)] with [cap >= 1] leaves in
    [dest] the longest prefix of [src] of at most [cap - 1] bytes, folded
    to lower case, and a terminator; it writes these offsets and no
    other, all below [cap].  It is [strzcpy] of the folded string. *)
Theorem makelower_safe_copy_bounded (s : list Z) (cap : Z) (b : nat) (m : buffer) :
  1 <= cap < size_max ->
  (b + Z.to_nat cap <= length (bytes m))%nat ->
  Forall (fun c => -128 <= c <= 255) (cstring s) ->
  let k := Nat.min (length (cstring s)) (Z.to_nat (cap - 1)) in
  makelower_safe_copy (Ptr b) (Some s) cap m
  = Done (Buffer (take b (bytes m) ++ map tolower (take k (cstring s)) ++
                  0 :: drop (b + k + 1) (bytes m))
                 (rev (seq b (S k)) ++ written m)) /\
  makelower_safe_copy (Ptr b) (Some s) cap m
  = strzcpy (Ptr b) (map tolower (cstring s)) cap m.
Proof.
  intros Hcap Hlen Hchars k.
  assert (Hmap : map (fun c => if isupper (to_uchar c)
                               then to_char (tolower (to_uchar c)) else c) (cstring s)
                 = map tolower (cstring s)).
  { apply map_ext_Forall. eapply Forall_impl; [exact Hchars |].
    intros c Hc. by apply lower_byte. }
  assert (Hrun : makelower_safe_copy (Ptr b) (Some s) cap m
                 = strzcpy (Ptr b) (map tolower (cstring s)) cap m).
  { unfold makelower_safe_copy, strzcpy. cbn [is_null no_src src_string orb].
    destruct (Z.eqb_spec cap 0); [lia |]. destruct (Z.leb_spec cap 0); [lia |].
    by rewrite makelower_loop_copy, Hmap. }
  split; [| exact Hrun].
  rewrite Hrun. unfold strzcpy. destruct (Z.leb_spec cap 0); [lia |].
  assert (Hnz : Forall (fun c => c <> 0) (map tolower (cstring s))).
  { apply Forall_fmap. eapply Forall_impl; [apply cstring_nonzero |].
    intros c Hc. unfold compose. intros H0. apply Hc. by apply (proj1 (tolower_zero c)). }
  assert (Hcs : cstring (map tolower (cstring s)) = map tolower (cstring s))
    by (by apply cstring_nonzero_id).
  destruct (split_at (bytes m) b k) as [o Ho]; [unfold k; lia |].
  rewrite <- (buffer_eta m) at 1. rewrite Ho at 1.
  set (old := take k (drop b (bytes m))).
  assert (Hold : length old = k).
  { unfold old. rewrite length_take, length_drop. unfold k. lia. }
  rewrite (copy_loop_spec _ b 0 cap (take b (bytes m)) old); cycle 1.
  { lia. }
  { rewrite length_take. lia. }
  { rewrite Hcs, length_map, Hold. reflexivity. }
  simpl bind. cbn [fst snd]. rewrite Hold, Hcs.
  rewrite (app_assoc (take b (bytes m))).
  rewrite store_inside; cycle 1.
  { rewrite length_app, !length_take, length_map. unfold k. lia. }
  f_equal. f_equal.
  - rewrite <- app_assoc. by rewrite <- fmap_take.
  - rewrite seq_S, rev_app_distr. simpl.
    by replace (b + 0)%nat with b by lia.
Qed.

Lemma makelower_safe_copy_bounded_witness :
  makelower_safe_copy (Ptr 0) (Some [65; 98; 67; 68]) 3 (Buffer [1; 1; 1; 1] [])
  = Done (Buffer [97; 98; 0; 1] [2; 1; 0]%nat).
Proof.
  destruct (makelower_safe_copy_bounded [65; 98; 67; 68] 3 0 (Buffer [1; 1; 1; 1] []))
    as [H _]; [unfold size_max; lia | simpl; lia | | exact H].
  repeat constructor; lia.
Defined.

End Makelower.

(** ** [substring_safe_copy]: bounded slice *)

Section SubstringGeneral.
Import Int Libc Aiutils Spec.

(** Storing a run of bytes inside the object replaces as many. *)
Lemma store_bytes_spec (l : list Z) :
  forall (b i : nat) (pre old post : list Z) (w : list nat),
    length pre = (b + i)%nat -> length old = length l ->
    store_bytes (Ptr b) i l (Buffer (pre ++ old ++ post) w)
    = Done (Buffer (pre ++ l ++ post) (rev (seq (b + i) (length l)) ++ w)).
Proof.
  induction l as [| c l IH]; intros b i pre old post w Hpre Hold.
  - destruct old; [reflexivity | discriminate].
  - destruct old as [| o old]; [discriminate |]. cbn [length] in Hold.
    cbn [store_bytes]. change ((o :: old) ++ post) with (o :: (old ++ post)).
    rewrite store_inside by done. simpl bind.
    replace (pre ++ c :: old ++ post) with ((pre ++ [c]) ++ old ++ post)
      by (by rewrite <- app_assoc).
    rewrite (IH b (S i)); [| rewrite length_app; simpl; lia | lia].
    f_equal. f_equal.
    + by rewrite <- app_assoc.
    + cbn [length seq rev]. rewrite <- app_assoc. cbn [app].
      by replace (b + S i)%nat with (S (b + i)) by lia.
Qed.

(** [substring_safe_copy(dest, src, cap, pos, len)] with [cap >= 1]
    leaves in [dest] the bytes of the string [src] from offset [pos] on,
    [len] and [cap - 1] of them at most, and a terminator: the empty
    string when [pos] is at or past the end.  It writes these offsets
    and no other. *)
Theorem substring_safe_copy_slice (s : list Z) (cap pos len : Z) (b : nat) (m : buffer) :
  1 <= cap < size_max -> 0 <= pos -> 0 <= len ->
  (b + Z.to_nat cap <= length (bytes m))%nat ->
  let sub := take (Nat.min (Z.to_nat len) (Z.to_nat (cap - 1)))
                  (drop (Z.to_nat pos) (cstring s)) in
  substring_safe_copy (Ptr b) (Some s) cap pos len m
  = Done (Buffer (take b (bytes m) ++ sub ++ 0 :: drop (b + length sub + 1) (bytes m))
                 (rev (seq b (S (length sub))) ++ written m)) /\
  (length sub <= Z.to_nat (cap - 1))%nat.
Proof.
  intros Hcap Hpos Hlen Hbuf sub.
  assert (Hsublen : (length sub <= Z.to_nat (cap - 1))%nat).
  { unfold sub. rewrite length_take. lia. }
  split; [| exact Hsublen].
  unfold substring_safe_copy. cbn [is_null no_src src_string orb].
  destruct (Z.eqb_spec cap 0); [lia |].
  unfold strlen.
  set (L := length (cstring s)).
  destruct (Z.leb_spec (Z.of_nat L) pos) as [Hpast | Hin].
  - assert (Hsub : sub = []).
    { unfold sub. rewrite drop_ge by (fold L; lia). by rewrite take_nil. }
    rewrite Hsub. cbn [length app].
    destruct (split_at (bytes m) b 0) as [o Ho]; [lia |].
    rewrite take_0 in Ho. cbn [app] in Ho.
    rewrite <- (buffer_eta m) at 1. rewrite Ho at 1.
    rewrite store_inside by (rewrite length_take; lia).
    do 2 f_equal. by rewrite Nat.add_0_r.
  - rewrite size_dec_pos by done.
    set (copy_len :=
           if cap - 1 <? (if len <? Z.of_nat L - pos then len else Z.of_nat L - pos)
           then cap - 1
           else if len <? Z.of_nat L - pos then len else Z.of_nat L - pos).
    assert (Hcl : copy_len = Z.min (Z.min len (Z.of_nat L - pos)) (cap - 1)).
    { unfold copy_len.
      destruct (Z.ltb_spec len (Z.of_nat L - pos)), (Z.ltb_spec (cap - 1) len),
        (Z.ltb_spec (cap - 1) (Z.of_nat L - pos)); lia. }
    assert (Hbytes : strncpy_bytes (advance (Z.to_nat pos) s) (Z.to_nat copy_len) = sub).
    { unfold advance. rewrite strncpy_bytes_take.
      - rewrite cstring_drop by (fold L; lia). unfold sub.
        destruct (Nat.le_gt_cases (Nat.min (Z.to_nat len) (Z.to_nat (cap - 1)))
                                  (L - Z.to_nat pos)) as [Hle | Hgt].
        + f_equal. lia.
        + rewrite !take_ge; [done | rewrite length_drop; fold L; lia
                            | rewrite length_drop; fold L; lia].
      - rewrite cstring_drop by (fold L; lia). rewrite length_drop. fold L. lia. }
    assert (Hsl : length sub = Z.to_nat copy_len).
    { unfold sub. rewrite length_take, length_drop. fold L. lia. }
    unfold strncpy. rewrite Hbytes, <- Hsl.
    destruct (split_at (bytes m) b (length sub)) as [o Ho]; [lia |].
    rewrite <- (buffer_eta m) at 1. rewrite Ho at 1.
    rewrite (store_bytes_spec sub b 0 (take b (bytes m))
               (take (length sub) (drop b (bytes m)))); cycle 1.
    { rewrite length_take. lia. }
    { rewrite length_take, length_drop. lia. }
    simpl bind. rewrite (app_assoc (take b (bytes m))).
    rewrite store_inside by (rewrite length_app, length_take; lia).
    f_equal. f_equal.
    + by rewrite <- app_assoc.
    + rewrite seq_S, rev_app_distr. simpl. by rewrite Nat.add_0_r.
Qed.

Lemma substring_safe_copy_slice_witness :
  substring_safe_copy (Ptr 0) (Some digits10) 4 8 5 (Buffer [1; 1; 1; 1; 1] [])
  = Done (Buffer [56; 57; 0; 1; 1] [2; 1; 0]%nat).
Proof.
  destruct (substring_safe_copy_slice digits10 4 8 5 0 (Buffer [1; 1; 1; 1; 1] []))
    as [H _]; [unfold size_max; lia | lia | lia | simpl; lia | exact H].
Defined.

End SubstringGeneral.

(** ** [fitoa]: the footprint *)

Section FitoaFootprint.
Import Int Aiutils Spec.

(** Given [wid + 1] bytes at [s], [fitoa(n, wid, s)] returns for every
    [n >= 0] and every width, zero included; it writes offsets [0] to
    [wid] of [s] and no other, and ends with a zero byte at [s[wid]]. *)
Theorem fitoa_writes_in_field (n : Z) (wid b : nat) (m : buffer) :
  0 <= n ->
  (b + wid < length (bytes m))%nat ->
  exists (m' : buffer) (new : list nat),
    fitoa n wid (Ptr b) m = Done m' /\
    written m' = new ++ written m /\
    Forall (fun i => (b <= i <= b + wid)%nat) new /\
    length (bytes m') = length (bytes m) /\
    bytes m' !! (b + wid)%nat = Some 0.
Proof.
  intros Hn Hlen.
  destruct (is_decimal_exists n Hn) as [ds Hds].
  destruct (split_at (bytes m) b wid Hlen) as [o Ho].
  set (field := take wid (drop b (bytes m))) in Ho.
  assert (Hfield : length field = wid).
  { unfold field. rewrite length_take, length_drop. lia. }
  assert (Hpre : length (take b (bytes m)) = b) by (rewrite length_take; lia).
  assert (Hstore :
    store (Ptr b) wid 0 m
    = Done (Buffer (take b (bytes m) ++ field ++ 0 :: drop (b + wid + 1) (bytes m))
                   ((b + wid)%nat :: written m))).
  { rewrite <- (buffer_eta m) at 1. rewrite Ho at 1.
    rewrite !(app_assoc (take b (bytes m)) field).
    by rewrite store_inside by (rewrite length_app; lia). }
  assert (Hsize : forall f : list Z, length f = wid ->
    length (take b (bytes m) ++ f ++ 0 :: drop (b + wid + 1) (bytes m)) = length (bytes m)).
  { intros f Hf. rewrite !length_app. cbn [length]. rewrite length_drop. lia. }
  assert (Hterm : forall f : list Z, length f = wid ->
    (take b (bytes m) ++ f ++ 0 :: drop (b + wid + 1) (bytes m)) !! (b + wid)%nat = Some 0).
  { intros f Hf. rewrite app_assoc.
    rewrite lookup_app_r by (rewrite length_app; lia).
    rewrite length_app, Hpre, Hf. by replace (b + wid - (b + wid))%nat with O by lia. }
  assert (Hseq : forall k, (k <= wid)%nat ->
    Forall (fun i => (b <= i <= b + wid)%nat) (seq b k)).
  { intros k Hk. apply Forall_forall. intros i Hi. apply elem_of_seq in Hi. lia. }
  unfold fitoa. rewrite Hstore. simpl bind.
  destruct (Nat.le_gt_cases (length ds) wid) as [Hfit | Hover].
  - rewrite (fitoa_loop_fits wid wid ds n b _ field) by done.
    eexists. exists (seq b wid ++ [(b + wid)%nat]).
    split; [reflexivity |]. cbn [bytes written].
    split; [by rewrite <- app_assoc |]. split; [| split].
    + apply Forall_app. split; [by apply Hseq |]. constructor; [lia | constructor].
    + rewrite (app_assoc (replicate (wid - length ds) 32)).
      apply Hsize. rewrite length_app, length_replicate, length_map. lia.
    + rewrite (app_assoc (replicate (wid - length ds) 32)).
      apply Hterm. rewrite length_app, length_replicate, length_map. lia.
  - rewrite (fitoa_loop_stars wid wid ds n b _ field) by (done || lia).
    eexists. exists (seq b wid ++ seq b wid ++ [(b + wid)%nat]).
    split; [reflexivity |]. cbn [bytes written].
    split; [by rewrite <- !app_assoc |]. split; [| split].
    + rewrite !Forall_app. split; [by apply Hseq |]. split; [by apply Hseq |].
      constructor; [lia | constructor].
    + apply Hsize. by rewrite length_replicate.
    + apply Hterm. by rewrite length_replicate.
Qed.

Lemma fitoa_writes_in_field_witness :
  exists (m' : buffer) (new : list nat),
    fitoa 12345 0 (Ptr 1) (Buffer [7; 7; 7] []) = Done m' /\
    written m' = new ++ [] /\
    Forall (fun i => (1 <= i <= 1 + 0)%nat) new /\
    length (bytes m') = 3%nat /\
    bytes m' !! (1 + 0)%nat = Some 0.
Proof. apply (fitoa_writes_in_field 12345 0 1 (Buffer [7; 7; 7] [])); [lia | simpl; lia]. Defined.

End FitoaFootprint.

(** ** Strings edited in place *)

Section InPlace.
Import Int Libc Aiutils Spec.

Lemma scan_until_spec (stop : Z -> bool) (l : list Z) :
  forall (x : Z) (rest : list Z),
    Forall (fun c => stop c = false) l -> stop x = true ->
    scan_until stop (l ++ x :: rest) = Some (length l).
Proof.
  induction l as [| c l IH]; intros x rest Hl Hx.
  - cbn [app scan_until]. by rewrite Hx.
  - apply Forall_cons in Hl as [Hc Hl]. cbn [app scan_until]. rewrite Hc.
    by rewrite (IH x rest Hl Hx).
Qed.

Lemma scan_buffer_spec (stop : Z -> bool) (b : nat) (pre l : list Z) (x : Z)
    (rest : list Z) (w : list nat) :
  length pre = b ->
  Forall (fun c => stop c = false) l -> stop x = true ->
  scan_buffer stop (Ptr b) (Buffer (pre ++ l ++ x :: rest) w) = Done (length l).
Proof.
  intros Hpre Hl Hx. unfold scan_buffer. cbn [bytes].
  rewrite drop_app_length' by done. by rewrite scan_until_spec.
Qed.

(** [strlen] on a string in the caller's storage. *)
Lemma strlen_at_spec (b : nat) (pre str post : list Z) (w : list nat) :
  length pre = b -> Forall (fun c => c <> 0) str ->
  strlen_at (Ptr b) (Buffer (pre ++ str ++ 0 :: post) w) = Done (length str).
Proof.
  intros Hpre Hstr. unfold strlen_at. apply scan_buffer_spec; [done | | reflexivity].
  eapply Forall_impl; [exact Hstr |]. intros c Hc. by apply Z.eqb_neq.
Qed.

Lemma string_at_spec (b : nat) (pre str post : list Z) (w : list nat) :
  length pre = b -> Forall (fun c => c <> 0) str ->
  string_at b (Buffer (pre ++ str ++ 0 :: post) w) = str.
Proof.
  intros Hpre Hstr. unfold string_at. cbn [bytes].
  rewrite drop_app_length' by done. by apply cstring_app_zero.
Qed.

(** The loop of [replace_char_inplace] over the bytes [seg] that start
    at index [i]: each byte equal to [ch] becomes [newch], except at
    index 0 and at [last_index] when [skipends] is set. *)
Lemma replace_char_loop_spec (seg : list Z) :
  forall (b i last_index : nat) (ch newch skipends : Z) (pre post : list Z) (w : list nat),
    length pre = (b + i)%nat ->
    exists w' : list nat,
      replace_char_loop (Ptr b) (length seg) i last_index ch newch skipends
                        (Buffer (pre ++ seg ++ post) w)
      = Done (Buffer
                (pre ++
                 imap (fun k c =>
                         if (c =? ch) &&
                            negb (negb (skipends =? 0) &&
                                  ((i + k =? 0)%nat || (i + k =? last_index)%nat))
                         then newch else c) seg ++
                 post) w').
Proof.
  induction seg as [| c seg IH]; intros b i last_index ch newch skipends pre post w Hpre.
  - exists w. reflexivity.
  - cbn [length replace_char_loop].
    change ((c :: seg) ++ post) with (c :: (seg ++ post)).
    rewrite load_inside by done. simpl bind.
    rewrite imap_cons. rewrite Nat.add_0_r.
    set (c' := if (c =? ch) &&
                  negb (negb (skipends =? 0) && ((i =? 0)%nat || (i =? last_index)%nat))
               then newch else c).
    assert (Hstep : exists w1,
      (if (c =? ch) &&
          negb (negb (skipends =? 0) && ((i =? 0)%nat || (i =? last_index)%nat))
       then store (Ptr b) i newch (Buffer (pre ++ c :: seg ++ post) w)
       else Done (Buffer (pre ++ c :: seg ++ post) w))
      = Done (Buffer (pre ++ c' :: seg ++ post) w1)).
    { unfold c'.
      destruct ((c =? ch) &&
                negb (negb (skipends =? 0) && ((i =? 0)%nat || (i =? last_index)%nat))).
      - rewrite store_inside by done. by eexists.
      - by eexists. }
    destruct Hstep as [w1 ->]. simpl bind.
    replace (pre ++ c' :: seg ++ post) with ((pre ++ [c']) ++ seg ++ post)
      by (by rewrite <- app_assoc).
    destruct (IH b (S i) last_index ch newch skipends (pre ++ [c']) post w1) as [w' ->].
    { rewrite length_app. simpl. lia. }
    exists w'. f_equal. f_equal. rewrite <- app_assoc. cbn [app]. do 2 f_equal.
    apply (f_equal (fun l => l ++ post)).
    apply imap_ext. intros k x _. unfold compose.
    by replace (i + S k)%nat with (S i + k)%nat by lia.
Qed.

End InPlace.

(** ** [replace_char_inplace] and [replace_char_safe_copy] *)

Section ReplaceChar.
Import Int Libc Aiutils Spec.

(** The run of [strzcpy] into an object of at least [cap] bytes. *)
Lemma strzcpy_run (s : list Z) (cap : Z) (b : nat) (m : buffer) :
  1 <= cap < size_max ->
  (b + Z.to_nat cap <= length (bytes m))%nat ->
  let k := Nat.min (length (cstring s)) (Z.to_nat (cap - 1)) in
  strzcpy (Ptr b) s cap m
  = Done (Buffer (take b (bytes m) ++ take k (cstring s) ++ 0 :: drop (b + k + 1) (bytes m))
                 (rev (seq b (S k)) ++ written m)).
Proof.
  intros Hcap Hlen k.
  unfold strzcpy. destruct (Z.leb_spec cap 0); [lia |].
  destruct (split_at (bytes m) b k) as [o Ho]; [unfold k; lia |].
  rewrite <- (buffer_eta m) at 1. rewrite Ho at 1.
  set (old := take k (drop b (bytes m))).
  assert (Hold : length old = k).
  { unfold old. rewrite length_take, length_drop. unfold k. lia. }
  rewrite (copy_loop_spec s b 0 cap (take b (bytes m)) old); cycle 1.
  { lia. }
  { rewrite length_take. lia. }
  { by rewrite Hold. }
  simpl bind. cbn [fst snd]. rewrite Hold.
  rewrite (app_assoc (take b (bytes m))).
  rewrite store_inside; cycle 1.
  { rewrite length_app, !length_take. unfold k. lia. }
  f_equal. f_equal.
  - by rewrite <- app_assoc.
  - rewrite seq_S, rev_app_distr. simpl.
    by replace (b + 0)%nat with b by lia.
Qed.

(** The run of [replace_char_inplace] on a string in place, byte by
    byte and index by index. *)
Lemma replace_char_inplace_run
    (b : nat) (pre str post : list Z) (w : list nat) (ch newch skipends : Z) :
  length pre = b -> Forall (fun c => c <> 0) str ->
  exists w' : list nat,
    replace_char_inplace (Ptr b) ch newch skipends (Buffer (pre ++ str ++ 0 :: post) w)
    = Done (Buffer
              (pre ++
               imap (fun k c =>
                       if (c =? ch) &&
                          negb (negb (skipends =? 0) &&
                                ((0 + k =? 0)%nat || (0 + k =? length str - 1)%nat))
                       then newch else c) str ++
               0 :: post) w').
Proof.
  intros Hpre Hstr. unfold replace_char_inplace.
  rewrite strlen_at_spec by done. simpl bind.
  destruct str as [| x0 str0] eqn:Estr.
  { exists w. reflexivity. }
  rewrite <- Estr in *. assert (Hlen : length str = S (length str0)) by (by rewrite Estr).
  rewrite Hlen.
  destruct (replace_char_loop_spec str b 0 (length str0) ch newch skipends pre (0 :: post) w)
    as [w' Hrun]; [lia |].
  rewrite Hlen in Hrun. rewrite Hrun.
  exists w'. by replace (S (length str0) - 1)%nat with (length str0) by lia.
Qed.

(** Without [skipends] the index plays no part. *)
Lemma replace_noskip (ch newch : Z) (last : nat) (str : list Z) :
  imap (fun k c =>
          if (c =? ch) &&
             negb (negb (0 =? 0) && ((0 + k =? 0)%nat || (0 + k =? last)%nat))
          then newch else c) str
  = map (replaced ch newch) str.
Proof.
  transitivity (imap (const (replaced ch newch)) str); [| apply imap_const].
  apply imap_ext. intros k c _. unfold const, replaced.
  change (negb (0 =? 0)) with false. cbn [andb negb]. by rewrite andb_true_r.
Qed.



(** [replace_char_safe_copy(dest, src, cap, ch, newch, 0)] with
    [cap >= 1] and a non-null [dest] leaves in [dest] the longest prefix
    of [src] of at most [cap - 1] bytes with every [ch] replaced by
    [newch], and a terminator; the bytes of [dest] from [cap] on are
    kept.  With [newch = ch] the result is the bounded copy of [src]. *)
Theorem replace_char_safe_copy_bounded
    (s : list Z) (cap : Z) (b : nat) (m : buffer) (ch newch : Z) :
  1 <= cap < size_max ->
  (b + Z.to_nat cap <= length (bytes m))%nat ->
  let k := Nat.min (length (cstring s)) (Z.to_nat (cap - 1)) in
  exists m' : buffer,
    replace_char_safe_copy (Ptr b) (Some s) cap ch newch 0 m = Done m' /\
    bytes m' = take b (bytes m) ++ map (replaced ch newch) (take k (cstring s)) ++
               0 :: drop (b + k + 1) (bytes m) /\
    (newch = ch -> bytes m' = take b (bytes m) ++ take k (cstring s) ++
                              0 :: drop (b + k + 1) (bytes m)).
Proof.
  intros Hcap Hlen k.
  unfold replace_char_safe_copy. cbn [is_null no_src src_string orb].
  destruct (Z.eqb_spec cap 0); [lia |].
  rewrite strzcpy_run by done. fold k. cbn [bind].
  destruct (replace_char_inplace_run b (take b (bytes m)) (take k (cstring s))
              (drop (b + k + 1) (bytes m)) (rev (seq b (S k)) ++ written m) ch newch 0)
    as [w' Hrun].
  { rewrite length_take. lia. }
  { apply Forall_take, cstring_nonzero. }
  rewrite Hrun, replace_noskip.
  eexists. split; [reflexivity |]. cbn [bytes]. split; [reflexivity |].
  intros ->. do 2 f_equal.
  rewrite <- (map_id (take k (cstring s))) at 2.
  apply map_ext. intros c. unfold replaced. by destruct (Z.eqb_spec c ch).
Qed.

Lemma replace_char_safe_copy_bounded_witness :
  exists m' : buffer,
    replace_char_safe_copy (Ptr 0) (Some [97; 32; 98; 32; 99]) 4 32 95 0
                           (Buffer (replicate 6 1) []) = Done m' /\
    bytes m' = [97; 95; 98; 0; 1; 1].
Proof.
  destruct (replace_char_safe_copy_bounded [97; 32; 98; 32; 99] 4 0 (Buffer (replicate 6 1) [])
              32 95) as (m' & Hrun & Hbytes & _); [unfold size_max; lia | simpl; lia |].
  exists m'. split; [exact Hrun | exact Hbytes].
Defined.

End ReplaceChar.

(** ** [remove_char_inplace] *)

Section RemoveChar.
Import Int Libc Aiutils Spec.

(** The compaction loop.  [out] are the bytes kept so far, [gap] the
    stale bytes between the write index and the read index, [rest] the
    bytes still to read. *)
Lemma remove_char_loop_spec (rest : list Z) :
  forall (b i j : nat) (c : Z) (pre out gap post : list Z) (w : list nat),
    length pre = b -> length out = j -> (j + length gap)%nat = i ->
    exists (gap' : list Z) (w' : list nat),
      remove_char_loop (Ptr b) (length rest) i j c
                       (Buffer (pre ++ out ++ gap ++ rest ++ post) w)
      = Done ((j + length (filter (fun x => x <> c) rest))%nat,
              Buffer (pre ++ out ++ filter (fun x => x <> c) rest ++ gap' ++ post) w') /\
      (length (filter (fun x => x <> c) rest) + length gap'
       = length gap + length rest)%nat.
Proof.
  induction rest as [| x rest IH]; intros b i j c pre out gap post w Hpre Hout Hgap.
  - exists gap, w. cbn [length remove_char_loop]. rewrite filter_nil. cbn [app length].
    split; [by rewrite Nat.add_0_r | lia].
  - cbn [length remove_char_loop].
    assert (Hload : load (Ptr b) i (Buffer (pre ++ out ++ gap ++ (x :: rest) ++ post) w)
                    = Done x).
    { replace (pre ++ out ++ gap ++ (x :: rest) ++ post)
        with ((pre ++ out ++ gap) ++ x :: (rest ++ post))
        by (by rewrite <- !app_assoc).
      apply load_inside. rewrite !length_app. lia. }
    rewrite Hload. cbn [bind].
    destruct (Z.eqb_spec x c) as [-> | Hx]; cbn [negb].
    + destruct (IH b (S i) j c pre out (gap ++ [c]) post w) as (gap' & w' & Hrun & Hlen);
        [done | done | rewrite length_app; simpl; lia |].
      exists gap', w'. rewrite filter_cons_False by (intros H; by apply H).
      replace (pre ++ out ++ gap ++ (c :: rest) ++ post)
        with (pre ++ out ++ (gap ++ [c]) ++ rest ++ post)
        by (by rewrite <- !app_assoc).
      split; [exact Hrun |]. rewrite length_app in Hlen. simpl in Hlen. simpl. lia.
    + cbn [bind]. rewrite filter_cons_True by done.
      assert (Hstore : exists gap1 w1,
        store (Ptr b) j x (Buffer (pre ++ out ++ gap ++ (x :: rest) ++ post) w)
        = Done (Buffer (pre ++ (out ++ [x]) ++ gap1 ++ rest ++ post) w1) /\
        length gap1 = length gap).
      { destruct gap as [| g gap].
        - exists [], ((b + j)%nat :: w). split; [| done]. cbn [app].
          replace (pre ++ out ++ x :: rest ++ post)
            with ((pre ++ out) ++ x :: (rest ++ post)) by (by rewrite <- !app_assoc).
          rewrite store_inside by (rewrite length_app; lia).
          by rewrite <- !app_assoc.
        - exists (gap ++ [x]), ((b + j)%nat :: w).
          split; [| rewrite length_app; simpl; lia].
          replace (pre ++ out ++ (g :: gap) ++ (x :: rest) ++ post)
            with ((pre ++ out) ++ g :: (gap ++ x :: rest ++ post))
            by (by rewrite <- !app_assoc).
          rewrite store_inside by (rewrite length_app; lia).
          by rewrite <- !app_assoc. }
      destruct Hstore as (gap1 & w1 & -> & Hgap1). cbn [bind].
      destruct (IH b (S i) (S j) c pre (out ++ [x]) gap1 post w1)
        as (gap' & w' & Hrun & Hlen);
        [done | rewrite length_app; simpl; lia | lia |].
      exists gap', w'. rewrite Hrun. split.
      * f_equal. f_equal; [cbn [length]; lia |]. by rewrite <- !app_assoc.
      * cbn [length]. lia.
Qed.

(** [remove_char_inplace] on a string in place leaves the string without
    any byte equal to [c], the other bytes in their order; the string
    does not grow, and the bytes before it and after its old terminator
    are kept. *)
Theorem remove_char_inplace_filter
    (b : nat) (pre str post : list Z) (w : list nat) (c : Z) :
  length pre = b -> Forall (fun x => x <> 0) str ->
  exists m' : buffer,
    remove_char_inplace (Ptr b) c (Buffer (pre ++ str ++ 0 :: post) w) = Done m' /\
    string_at b m' = filter (fun x => x <> c) str /\
    (c ∉ string_at b m') /\
    (length (string_at b m') <= length str)%nat /\
    length (bytes m') = length (pre ++ str ++ 0 :: post) /\
    take b (bytes m') = pre /\
    drop (b + length str + 1) (bytes m') = post.
Proof.
  intros Hpre Hstr. unfold remove_char_inplace. cbn [is_null].
  rewrite strlen_at_spec by done. cbn [bind].
  destruct (remove_char_loop_spec str b 0 0 c pre [] [] (0 :: post) w)
    as (gap' & w' & Hrun & Hlen); [done | done | done |].
  cbn [app] in Hrun. rewrite Hrun. cbn [bind fst snd]. rewrite Nat.add_0_l.
  set (filt := filter (fun x => x <> c) str) in *.
  assert (Hfilt : Forall (fun x => x <> 0) filt).
  { apply Forall_forall. intros x Hx. apply list_elem_of_filter in Hx as [_ Hx].
    revert x Hx. by apply Forall_forall. }
  assert (Hstore : exists tail w1,
    store (Ptr b) (length filt) 0 (Buffer (pre ++ filt ++ gap' ++ 0 :: post) w')
    = Done (Buffer (pre ++ filt ++ 0 :: tail) w1) /\
    (length filt + 1 + length tail = length str + 1 + length post)%nat /\
    drop (length str - length filt) tail = post).
  { cbn [length] in Hlen. destruct gap' as [| g gap'].
    - exists post, ((b + length filt)%nat :: w'). cbn [app length] in *.
      rewrite app_assoc. rewrite store_inside by (rewrite length_app; lia).
      rewrite <- app_assoc. split; [done |]. split; [lia |].
      by replace (length str - length filt)%nat with O by lia.
    - exists (gap' ++ 0 :: post), ((b + length filt)%nat :: w'). cbn [app length] in *.
      rewrite app_assoc. rewrite store_inside by (rewrite length_app; lia).
      rewrite <- app_assoc. split; [done |]. split; [rewrite length_app; simpl; lia |].
      replace (length str - length filt)%nat with (length (gap' ++ [0])) 
        by (rewrite length_app; simpl; lia).
      replace (gap' ++ 0 :: post) with ((gap' ++ [0]) ++ post) by (by rewrite <- app_assoc).
      by rewrite drop_app_length. }
  destruct Hstore as (tail & w1 & -> & Htotal & Hdrop).
  eexists. split; [reflexivity |]. cbn [bytes].
  rewrite string_at_spec by done.
  split; [done |]. split; [| split; [| split; [| split]]].
  - unfold filt. intros Hin. apply list_elem_of_filter in Hin as [Hne _]. by apply Hne.
  - apply length_filter.
  - rewrite !length_app. cbn [length]. lia.
  - by rewrite take_app_length'.
  - rewrite app_assoc.
    replace (b + length str + 1)%nat
      with (length (pre ++ filt) + S (length str - length filt))%nat.
    + rewrite drop_app_add. cbn [drop]. exact Hdrop.
    + rewrite length_app. pose proof (length_filter (fun x => x <> c) str). fold filt in H. lia.
Qed.

Lemma remove_char_inplace_filter_witness :
  exists m' : buffer,
    remove_char_inplace (Ptr 1) 32 (Buffer ([9] ++ [97; 32; 98; 32] ++ 0 :: [7]) []) = Done m' /\
    string_at 1 m' = [97; 98].
Proof.
  destruct (remove_char_inplace_filter 1 [9] [97; 32; 98; 32] [7] [] 32)
    as (m' & Hrun & Hstr & _); [reflexivity | repeat constructor; lia |].
  exists m'. split; [exact Hrun | exact Hstr].
Defined.

End RemoveChar.

(** ** [uppercase_inplace] *)

Section Uppercase.
Import Int Libc Aiutils Spec.

Lemma islower_uchar (c : Z) : -128 <= c <= 255 -> islower (to_uchar c) = islower c.
Proof.
  intros Hc. destruct (to_uchar_char c Hc) as [Hpos Hneg]. unfold islower.
  destruct (Z_lt_le_dec c 0) as [Hlt | Hge].
  - rewrite (Hneg Hlt). by_ranges.
  - by rewrite (Hpos Hge).
Qed.

Lemma uppercase_loop_spec (seg : list Z) :
  forall (fuel b i : nat) (pre post : list Z) (w : list nat),
    length pre = (b + i)%nat -> Forall text_byte seg -> (length seg < fuel)%nat ->
    exists w' : list nat,
      uppercase_loop fuel (Ptr b) i (Buffer (pre ++ seg ++ 0 :: post) w)
      = Done (Buffer (pre ++ map toupper seg ++ 0 :: post) w').
Proof.
  induction seg as [| c seg IH]; intros fuel b i pre post w Hpre Hseg Hfuel.
  - destruct fuel as [| fuel]; [simpl in Hfuel; lia |].
    exists w. cbn [app map uppercase_loop]. by rewrite load_inside.
  - destruct fuel as [| fuel]; [simpl in Hfuel; lia |].
    apply Forall_cons in Hseg as [[Hc0 Hc] Hseg]. cbn [length] in Hfuel.
    cbn [app map uppercase_loop]. rewrite load_inside by done. cbn [bind].
    destruct (Z.eqb_spec c 0); [done |].
    rewrite islower_uchar by done.
    assert (Hstep : exists w1,
      (if islower c
       then store (Ptr b) i (to_char (toupper (to_uchar c)))
                  (Buffer (pre ++ c :: seg ++ 0 :: post) w)
       else Done (Buffer (pre ++ c :: seg ++ 0 :: post) w))
      = Done (Buffer ((pre ++ [toupper c]) ++ seg ++ 0 :: post) w1)).
    { unfold toupper at 2. destruct (islower c) eqn:Hl.
      - rewrite store_inside by done. eexists. do 2 f_equal.
        rewrite <- app_assoc. cbn [app]. do 2 f_equal.
        unfold islower in Hl. apply andb_true_iff in Hl as [H1 H2].
        apply Z.leb_le in H1, H2.
        destruct (to_uchar_char c Hc) as [Hpos _]. rewrite Hpos by lia.
        unfold toupper, islower. by_ranges. apply to_char_ascii. lia.
      - exists w. by rewrite <- app_assoc. }
    destruct Hstep as [w1 ->]. cbn [bind].
    destruct (IH fuel b (S i) (pre ++ [toupper c]) post w1) as [w' ->];
      [rewrite length_app; simpl; lia | done | lia |].
    exists w'. by rewrite <- app_assoc.
Qed.

(** [uppercase_inplace] on a string in place turns every ASCII
    lower-case letter into its upper-case letter and keeps every other
    byte, the terminator and the bytes around the string. *)
Theorem uppercase_inplace_string (b : nat) (pre str post : list Z) (w : list nat) :
  length pre = b -> Forall text_byte str ->
  exists w' : list nat,
    uppercase_inplace (Ptr b) (Buffer (pre ++ str ++ 0 :: post) w)
    = Done (Buffer (pre ++ map toupper str ++ 0 :: post) w').
Proof.
  intros Hpre Hstr. unfold uppercase_inplace. cbn [is_null bytes].
  apply uppercase_loop_spec; [lia | done |].
  rewrite !length_app. cbn [length]. lia.
Qed.

Lemma uppercase_inplace_string_witness :
  exists w' : list nat,
    uppercase_inplace (Ptr 1) (Buffer ([9] ++ [97; 66; 122; 49] ++ 0 :: [97]) [])
    = Done (Buffer ([9] ++ map toupper [97; 66; 122; 49] ++ 0 :: [97]) w').
Proof.
  apply (uppercase_inplace_string 1 [9] [97; 66; 122; 49] [97] []); [reflexivity |].
  repeat constructor; lia.
Defined.

End Uppercase.

(** ** [safe_gets]: lines that fit *)

Section SafeGetsLines.
Import Int Libc Aiutils Spec.






End SafeGetsLines.

(** ** [trim_inplace] and [trim_safe_copy] *)

Section Trim.
Import Int Libc Aiutils Spec.

(** A list is its leading blanks followed by what [drop_blank] keeps,
    which does not start with a blank. *)
Lemma drop_blank_split (l : list Z) :
  exists bl : list Z,
    l = bl ++ drop_blank l /\
    Forall (fun c => blank c = true) bl /\
    blank (hd 0 (drop_blank l)) = false.
Proof.
  induction l as [| c l (bl & Hl & Hbl & Hhd)].
  - exists []. split; [done |]. split; [constructor | reflexivity].
  - cbn [drop_blank]. destruct (blank c) eqn:Hc.
    + exists (c :: bl). split; [cbn [app]; by f_equal |]. split; [by constructor | done].
    + exists []. split; [done |]. split; [constructor | done].
Qed.

Lemma drop_blank_fixed (l : list Z) :
  blank (hd 0 l) = false -> drop_blank l = l.
Proof. destruct l as [| c l]; [done |]. cbn [hd drop_blank]. by intros ->. Qed.

Lemma drop_blank_idemp (l : list Z) : drop_blank (drop_blank l) = drop_blank l.
Proof.
  destruct (drop_blank_split l) as (_ & _ & _ & Hhd). by apply drop_blank_fixed.
Qed.

(** A list is what [rtrim] keeps, which does not end with a blank,
    followed by its trailing blanks. *)
Lemma rtrim_split (l : list Z) :
  exists tb : list Z,
    l = rtrim l ++ tb /\
    Forall (fun c => blank c = true) tb /\
    blank (hd 0 (rev (rtrim l))) = false.
Proof.
  destruct (drop_blank_split (rev l)) as (bl & Hl & Hbl & Hhd).
  exists (rev bl). unfold rtrim. split; [| split].
  - rewrite <- rev_app_distr, <- Hl. by rewrite rev_involutive.
  - by apply Forall_rev.
  - by rewrite rev_involutive.
Qed.

Lemma rtrim_idemp (l : list Z) : rtrim (rtrim l) = rtrim l.
Proof. unfold rtrim. by rewrite rev_involutive, drop_blank_idemp. Qed.

(** Trimming on the right keeps a string that does not start with a
    blank free of leading blanks. *)
Lemma rtrim_keeps_head (l : list Z) :
  blank (hd 0 l) = false -> blank (hd 0 (rtrim l)) = false.
Proof.
  intros Hl. destruct (rtrim_split l) as (tb & Hsplit & _ & _).
  destruct (rtrim l) as [| c k]; [reflexivity |].
  rewrite Hsplit in Hl. exact Hl.
Qed.

Lemma trimmed_idemp (mode : Z) (l : list Z) : trimmed mode (trimmed mode l) = trimmed mode l.
Proof.
  unfold trimmed, ltrim.
  destruct (mode =? 98); [| destruct (mode =? 108); [| destruct (mode =? 114)]].
  - rewrite (drop_blank_fixed (rtrim (drop_blank l))).
    + by rewrite rtrim_idemp.
    + apply rtrim_keeps_head. by destruct (drop_blank_split l) as (_ & _ & _ & H).
  - apply drop_blank_idemp.
  - apply rtrim_idemp.
  - reflexivity.
Qed.

(** The left pass: the scan for the first byte that is not a blank,
    and the move of the rest of the string to the front. *)
Lemma trim_left_phase (b : nat) (pre str post : list Z) (w : list nat) :
  length pre = b -> Forall (fun c => c <> 0) str ->
  exists (junk : list Z) (w1 : list nat),
    (start <- scan_buffer (fun c => negb (negb (c =? 0) && isspace (to_uchar c)))
                          (Ptr b) (Buffer (pre ++ str ++ 0 :: post) w) ;;
     if (0 <? start)%nat
     then
       m1 <- memmove (Ptr b) 0 start (length str - start + 1)
                     (Buffer (pre ++ str ++ 0 :: post) w) ;;
       len1 <- strlen_at (Ptr b) m1 ;;
       Done (len1, m1)
     else Done (length str, Buffer (pre ++ str ++ 0 :: post) w))
    = Done (length (ltrim str), Buffer (pre ++ ltrim str ++ 0 :: junk ++ post) w1) /\
    (length (ltrim str) + length junk = length str)%nat.
Proof.
  intros Hpre Hstr. unfold ltrim.
  destruct (drop_blank_split str) as (bl & Hsplit & Hbl & Hhd).
  set (core := drop_blank str) in *.
  assert (Hcore : Forall (fun c => c <> 0) core).
  { rewrite Hsplit in Hstr. by apply Forall_app in Hstr as [_ ?]. }
  assert (Hblnz : Forall (fun c => c <> 0) bl).
  { rewrite Hsplit in Hstr. by apply Forall_app in Hstr as [? _]. }
  assert (Hlen : length str = (length bl + length core)%nat).
  { rewrite Hsplit at 1. by rewrite length_app. }
  assert (Hx : exists x tl, core ++ 0 :: post = x :: tl /\
                 negb (negb (x =? 0) && isspace (to_uchar x)) = true).
  { destruct core as [| c core'].
    - by exists 0, post.
    - exists c, (core' ++ 0 :: post). split; [done |].
      cbn [hd] in Hhd. unfold blank in Hhd. rewrite Hhd. by rewrite andb_false_r. }
  destruct Hx as (x & tl & Htl & Hstopx).
  assert (Hscan :
    scan_buffer (fun c => negb (negb (c =? 0) && isspace (to_uchar c)))
                (Ptr b) (Buffer (pre ++ str ++ 0 :: post) w) = Done (length bl)).
  { rewrite Hsplit at 1. rewrite <- app_assoc, Htl.
    apply scan_buffer_spec; [done | | done].
    apply Forall_forall. intros c Hc.
    pose proof (proj1 (Forall_forall _ _) Hbl c Hc) as Hb.
    pose proof (proj1 (Forall_forall _ _) Hblnz c Hc) as Hnz.
    cbv beta in Hb, Hnz. unfold blank in Hb. rewrite Hb.
    by destruct (Z.eqb_spec c 0). }
  rewrite Hscan. cbn [bind].
  destruct bl as [| b0 bl'].
  - cbn [length]. change (0 <? 0)%nat with false. cbv iota.
    cbn [app] in Hsplit. exists [], w. rewrite <- Hsplit. split; [done | cbn [length]; lia].
  - set (bl := b0 :: bl') in *.
    assert (Hpos : (0 <? length bl)%nat = true) by (by apply Nat.ltb_lt; simpl; lia).
    rewrite Hpos.
    set (X := bl ++ core ++ [0]).
    set (n := (length core + 1)%nat).
    assert (Hbytes : pre ++ str ++ 0 :: post = pre ++ X ++ post).
    { unfold X. rewrite Hsplit at 1. by rewrite <- !app_assoc. }
    assert (Hread : take n (drop (b + length bl) (pre ++ X ++ post)) = core ++ [0]).
    { rewrite <- Hpre. rewrite <- drop_drop, drop_app_length.
      unfold X. rewrite <- app_assoc, drop_app_length.
      rewrite take_app_length'; [done |].
      rewrite length_app. simpl. unfold n. lia. }
    assert (Hmove : exists w1,
      memmove (Ptr b) 0 (length bl) (length str - length bl + 1)
              (Buffer (pre ++ str ++ 0 :: post) w)
      = Done (Buffer (pre ++ core ++ 0 :: drop n X ++ post) w1)).
    { eexists. unfold memmove. cbn [bytes]. rewrite Hbytes.
      replace (length str - length bl + 1)%nat with n by (unfold n; lia).
      assert (HXlen : length X = (length bl + n)%nat).
      { unfold X, n. rewrite !length_app. simpl. lia. }
      destruct (Nat.leb_spec (b + length bl + n) (length (pre ++ X ++ post))) as [_ | Hbad];
        [| rewrite !length_app in Hbad; lia].
      rewrite Hread.
      rewrite <- (take_drop n X) at 1. rewrite <- (app_assoc (take n X)).
      rewrite (store_bytes_spec (core ++ [0]) b 0 pre (take n X)); cycle 1.
      { lia. }
      { rewrite length_take, length_app. cbn [length]. unfold n in *. lia. }
      do 2 f_equal. rewrite <- !app_assoc. reflexivity. }
    destruct Hmove as [w1 ->]. cbn [bind].
    rewrite (strlen_at_spec b pre core (drop n X ++ post) w1) by done. cbn [bind].
    exists (drop n X), w1. split; [done |].
    rewrite length_drop. unfold X, n. rewrite !length_app. cbn [length]. lia.
Qed.

(** The right scan stops after the last byte that is not a blank. *)
Lemma rtrim_scan_spec (tb : list Z) :
  forall (b : nat) (pre kept rest : list Z) (w : list nat),
    length pre = b ->
    Forall (fun c => blank c = true) tb ->
    blank (hd 0 (rev kept)) = false ->
    rtrim_scan (Ptr b) (length kept + length tb) (Buffer (pre ++ kept ++ tb ++ rest) w)
    = Done (length kept).
Proof.
  induction tb as [| t tb IH] using rev_ind; intros b pre kept rest w Hpre Htb Hkept.
  - cbn [length app]. rewrite Nat.add_0_r.
    destruct kept as [| y kept _] using rev_ind; [reflexivity |].
    rewrite rev_app_distr in Hkept. cbn [rev app hd] in Hkept.
    rewrite length_app. cbn [length]. rewrite Nat.add_1_r. cbn [rtrim_scan].
    rewrite <- app_assoc. cbn [app]. rewrite (app_assoc pre kept).
    rewrite load_inside by (rewrite length_app; lia). cbn [bind].
    unfold blank in Hkept. by rewrite Hkept.
  - apply Forall_app in Htb as [Htb Ht]. apply Forall_cons in Ht as [Ht _].
    rewrite length_app. cbn [length].
    replace (length kept + (length tb + 1))%nat with (S (length kept + length tb)) by lia.
    cbn [rtrim_scan].
    replace (pre ++ kept ++ (tb ++ [t]) ++ rest)
      with ((pre ++ kept ++ tb) ++ t :: rest) by (by rewrite <- !app_assoc).
    rewrite load_inside by (rewrite !length_app; lia). cbn [bind].
    unfold blank in Ht. rewrite Ht.
    replace ((pre ++ kept ++ tb) ++ t :: rest)
      with (pre ++ kept ++ tb ++ (t :: rest)) by (by rewrite <- !app_assoc).
    by apply IH.
Qed.

(** The right pass: the terminator is stored after the last byte that is
    not a blank. *)
Lemma trim_right_phase (b : nat) (pre core post : list Z) (w : list nat) :
  length pre = b -> Forall (fun c => c <> 0) core ->
  exists (junk : list Z) (w' : list nat),
    (if (length core =? 0)%nat then Done (Buffer (pre ++ core ++ 0 :: post) w)
     else
       e <- rtrim_scan (Ptr b) (length core) (Buffer (pre ++ core ++ 0 :: post) w) ;;
       store (Ptr b) e 0 (Buffer (pre ++ core ++ 0 :: post) w))
    = Done (Buffer (pre ++ rtrim core ++ 0 :: junk ++ post) w') /\
    (length (rtrim core) + length junk = length core)%nat.
Proof.
  intros Hpre Hcore.
  destruct core as [| c0 core'] eqn:Ecore.
  { exists [], w. split; [reflexivity | reflexivity]. }
  rewrite <- Ecore in *. assert (Hne : (length core =? 0)%nat = false).
  { rewrite Ecore. reflexivity. }
  rewrite Hne.
  destruct (rtrim_split core) as (tb & Hsplit & Htb & Hlast).
  set (kept := rtrim core) in *.
  assert (Hlen : length core = (length kept + length tb)%nat).
  { rewrite Hsplit at 1. by rewrite length_app. }
  assert (Hbytes : pre ++ core ++ 0 :: post = pre ++ kept ++ tb ++ 0 :: post).
  { rewrite Hsplit at 1. by rewrite <- app_assoc. }
  rewrite Hbytes, Hlen. rewrite rtrim_scan_spec by done. cbn [bind].
  rewrite (app_assoc pre kept).
  destruct tb as [| t tb'].
  - cbn [app]. rewrite store_inside by (rewrite length_app; lia).
    exists [], ((b + length kept)%nat :: w). rewrite <- app_assoc.
    split; [reflexivity | simpl; lia].
  - cbn [app]. rewrite store_inside by (rewrite length_app; lia).
    exists (tb' ++ [0]), ((b + length kept)%nat :: w). rewrite <- !app_assoc.
    split; [reflexivity |]. rewrite length_app. simpl. lia.
Qed.

Lemma trimmed_nonzero (mode : Z) (l : list Z) :
  Forall (fun c => c <> 0) l -> Forall (fun c => c <> 0) (trimmed mode l).
Proof.
  assert (Hsub : forall l, Forall (fun c => c <> 0) l ->
                   Forall (fun c => c <> 0) (drop_blank l) /\
                   Forall (fun c => c <> 0) (rtrim l)).
  { intros l0 Hl. split.
    - destruct (drop_blank_split l0) as (bl & Hs & _ & _).
      rewrite Hs in Hl. by apply Forall_app in Hl as [_ ?].
    - destruct (rtrim_split l0) as (tb & Hs & _ & _).
      rewrite Hs in Hl. by apply Forall_app in Hl as [? _]. }
  intros Hl. unfold trimmed, ltrim.
  destruct (mode =? 98); [| destruct (mode =? 108); [| destruct (mode =? 114)]].
  - apply Hsub. by apply Hsub.
  - by apply Hsub.
  - by apply Hsub.
  - done.
Qed.

(** The run of [trim_inplace] on a string in place. *)
Lemma trim_inplace_run (b : nat) (pre str post : list Z) (w : list nat) (mode : Z) :
  length pre = b -> Forall (fun c => c <> 0) str ->
  exists (junk : list Z) (w' : list nat),
    trim_inplace (Ptr b) mode (Buffer (pre ++ str ++ 0 :: post) w)
    = Done (Buffer (pre ++ trimmed mode str ++ 0 :: junk ++ post) w') /\
    (length (trimmed mode str) + length junk = length str)%nat.
Proof.
  intros Hpre Hstr. unfold trim_inplace. cbn [is_null].
  rewrite strlen_at_spec by done. cbn [bind].
  destruct str as [| c0 str0] eqn:Estr.
  { assert (Ht : trimmed mode [] = []).
    { unfold trimmed. by destruct (mode =? 98), (mode =? 108), (mode =? 114). }
    exists [], w. rewrite Ht. split; reflexivity. }
  rewrite <- Estr in *.
  assert (Hne : (length str =? 0)%nat = false) by (by rewrite Estr).
  rewrite Hne. unfold trimmed.
  destruct (trim_left_phase b pre str post w Hpre Hstr) as (junk1 & w1 & Hleft & Hlen1).
  assert (Hcore : Forall (fun c => c <> 0) (ltrim str)).
  { unfold ltrim. destruct (drop_blank_split str) as (bl & Hsplit & _ & _).
    rewrite Hsplit in Hstr. by apply Forall_app in Hstr as [_ ?]. }
  destruct (Z.eqb_spec mode 98) as [-> | H98].
  - change ((98 =? 108) || true) with true. change ((98 =? 114) || true) with true.
    cbv iota. rewrite Hleft. cbn [bind fst snd].
    destruct (trim_right_phase b pre (ltrim str) (junk1 ++ post) w1 Hpre Hcore)
      as (junk2 & w2 & Hright & Hlen2).
    rewrite Hright. exists (junk2 ++ junk1), w2. rewrite <- app_assoc.
    split; [reflexivity |]. rewrite length_app. lia.
  - destruct (Z.eqb_spec mode 108) as [-> | H108].
    + change (true || false) with true. change ((108 =? 114) || false) with false.
      cbv iota. rewrite Hleft. cbn [bind fst snd].
      exists junk1, w1. split; [reflexivity | lia].
    + cbn [orb]. cbn [bind fst snd].
      destruct (Z.eqb_spec mode 114) as [-> | H114].
      * cbn [orb].
        destruct (trim_right_phase b pre str post w Hpre Hstr)
          as (junk2 & w2 & Hright & Hlen2).
        rewrite Hright. exists junk2, w2. split; [reflexivity | lia].
      * cbn [orb]. exists [], w. split; [reflexivity | simpl; lia].
Qed.

(** [trim_inplace] on a string in place: mode ['l'] removes the leading
    white space, ['r'] the trailing white space, ['b'] both, and any
    other mode leaves the string as it is.  The bytes before the string
    and after its old terminator are kept. *)
Theorem trim_inplace_string (b : nat) (pre str post : list Z) (w : list nat) (mode : Z) :
  length pre = b -> Forall (fun c => c <> 0) str ->
  exists m' : buffer,
    trim_inplace (Ptr b) mode (Buffer (pre ++ str ++ 0 :: post) w) = Done m' /\
    string_at b m' = trimmed mode str /\
    length (bytes m') = length (pre ++ str ++ 0 :: post) /\
    take b (bytes m') = pre /\
    drop (b + length str + 1) (bytes m') = post.
Proof.
  intros Hpre Hstr.
  destruct (trim_inplace_run b pre str post w mode Hpre Hstr) as (junk & w' & Hrun & Hlen).
  assert (Hnz : Forall (fun c => c <> 0) (trimmed mode str)) by (by apply trimmed_nonzero).
  eexists. split; [exact Hrun |]. cbn [bytes].
  split; [by apply string_at_spec |]. split; [| split].
  - rewrite !length_app. cbn [length]. rewrite !length_app. lia.
  - by rewrite take_app_length'.
  - replace (pre ++ trimmed mode str ++ 0 :: junk ++ post)
      with ((pre ++ trimmed mode str ++ 0 :: junk) ++ post)
      by (by rewrite <- !app_assoc).
    rewrite drop_app_length'; [done |].
    rewrite !length_app. cbn [length]. lia.
Qed.

Lemma trim_inplace_string_witness :
  exists m' : buffer,
    trim_inplace (Ptr 1) 98 (Buffer ([9] ++ [32; 9; 104; 105; 32; 10] ++ 0 :: [7]) []) = Done m' /\
    string_at 1 m' = [104; 105].
Proof.
  destruct (trim_inplace_string 1 [9] [32; 9; 104; 105; 32; 10] [7] [] 98)
    as (m' & Hrun & Hstr & _); [reflexivity | repeat constructor; lia |].
  exists m'. split; [exact Hrun | exact Hstr].
Defined.

(** [trim_inplace] is idempotent in every mode: a second call on the
    result returns and leaves the same string. *)
Theorem trim_inplace_idempotent (b : nat) (pre str post : list Z) (w : list nat) (mode : Z) :
  length pre = b -> Forall (fun c => c <> 0) str ->
  exists m1 m2 : buffer,
    trim_inplace (Ptr b) mode (Buffer (pre ++ str ++ 0 :: post) w) = Done m1 /\
    trim_inplace (Ptr b) mode m1 = Done m2 /\
    string_at b m2 = string_at b m1 /\
    string_at b m1 = trimmed mode str.
Proof.
  intros Hpre Hstr.
  destruct (trim_inplace_run b pre str post w mode Hpre Hstr) as (junk & w' & Hrun & Hlen).
  assert (Hnz : Forall (fun c => c <> 0) (trimmed mode str)) by (by apply trimmed_nonzero).
  destruct (trim_inplace_run b pre (trimmed mode str) (junk ++ post) w' mode Hpre Hnz)
    as (junk2 & w2 & Hrun2 & Hlen2).
  eexists _, _. split; [exact Hrun |]. split; [exact Hrun2 |].
  rewrite !string_at_spec; try done.
  - split; [apply trimmed_idemp | reflexivity].
  - rewrite trimmed_idemp. exact Hnz.
Qed.

Lemma trim_inplace_idempotent_witness :
  exists m1 m2 : buffer,
    trim_inplace (Ptr 0) 98 (Buffer ([] ++ [32; 104; 32; 105; 32] ++ 0 :: [7]) []) = Done m1 /\
    trim_inplace (Ptr 0) 98 m1 = Done m2 /\
    string_at 0 m2 = string_at 0 m1 /\
    string_at 0 m1 = [104; 32; 105].
Proof.
  apply (trim_inplace_idempotent 0 [] [32; 104; 32; 105; 32] [7] [] 98); [reflexivity |].
  repeat constructor; lia.
Defined.

(** [trim_safe_copy(dest, src, cap, mode)] with [cap >= 1] and a
    non-null [dest] leaves in [dest] the trimmed form of the longest
    prefix of [src] of at most [cap - 1] bytes: the copy is cut to the
    capacity first and trimmed afterwards.  The bytes of [dest] from
    [cap] on are kept. *)
Theorem trim_safe_copy_bounded (s : list Z) (cap : Z) (mode : Z) (b : nat) (m : buffer) :
  1 <= cap < size_max ->
  (b + Z.to_nat cap <= length (bytes m))%nat ->
  let k := Nat.min (length (cstring s)) (Z.to_nat (cap - 1)) in
  exists m' : buffer,
    trim_safe_copy (Ptr b) (Some s) cap mode m = Done m' /\
    string_at b m' = trimmed mode (take k (cstring s)) /\
    length (bytes m') = length (bytes m) /\
    take b (bytes m') = take b (bytes m) /\
    drop (b + k + 1) (bytes m') = drop (b + k + 1) (bytes m).
Proof.
  intros Hcap Hlen k.
  unfold trim_safe_copy. cbn [is_null no_src src_string orb].
  destruct (Z.eqb_spec cap 0); [lia |].
  rewrite strzcpy_run by done. fold k. cbn [bind].
  assert (Hpre : length (take b (bytes m)) = b) by (rewrite length_take; lia).
  assert (Hk : Forall (fun c => c <> 0) (take k (cstring s)))
    by apply Forall_take, cstring_nonzero.
  assert (Hklen : length (take k (cstring s)) = k) by (rewrite length_take; unfold k; lia).
  destruct (trim_inplace_run b (take b (bytes m)) (take k (cstring s))
              (drop (b + k + 1) (bytes m)) (rev (seq b (S k)) ++ written m) mode Hpre Hk)
    as (junk & w' & Hrun & Hjunk).
  set (t := trimmed mode (take k (cstring s))) in *.
  assert (Hnz : Forall (fun c => c <> 0) t) by (by apply trimmed_nonzero).
  eexists. split; [exact Hrun |]. cbn [bytes].
  split; [by apply string_at_spec |]. split; [| split].
  - rewrite !length_app. cbn [length]. rewrite !length_app, length_drop. lia.
  - by rewrite take_app_length'.
  - replace (take b (bytes m) ++ t ++ 0 :: junk ++ drop (b + k + 1) (bytes m))
      with ((take b (bytes m) ++ t ++ 0 :: junk) ++ drop (b + k + 1) (bytes m))
      by (by rewrite <- !app_assoc).
    rewrite drop_app_length'; [done |].
    rewrite !length_app. cbn [length]. lia.
Qed.

Lemma trim_safe_copy_bounded_witness :
  exists m' : buffer,
    trim_safe_copy (Ptr 0) (Some [32; 32; 104; 105; 32; 32]) 5 98 (Buffer (replicate 6 1) [])
    = Done m' /\
    string_at 0 m' = [104; 105].
Proof.
  destruct (trim_safe_copy_bounded [32; 32; 104; 105; 32; 32] 5 98 0 (Buffer (replicate 6 1) []))
    as (m' & Hrun & Hstr & _); [unfold size_max; lia | simpl; lia |].
  exists m'. split; [exact Hrun | exact Hstr].
Defined.

End Trim.

(** ** [laststrstr]: the last occurrence *)

Section Laststrstr.
Import Int Libc Aiutils Spec.

Lemma prefix_at_spec (n : list Z) :
  forall h : list Z, prefix_at n h = true <-> occurs_at n h 0.
Proof.
  induction n as [| c n IH]; intros h.
  - split; [intros _; by exists [], h | done].
  - destruct h as [| x h]; cbn [prefix_at].
    + split; [done |]. intros (pre & post & H & Hl). by destruct pre.
    + rewrite andb_true_iff, IH, Z.eqb_eq. split.
      * intros [-> (pre & post & -> & Hl)]. destruct pre; [| discriminate].
        by exists [], post.
      * intros (pre & post & H & Hl). destruct pre; [| discriminate].
        cbn [app] in H. injection H as -> ->. split; [done |]. by exists [], post.
Qed.

Lemma occurs_at_cons (n : list Z) (x : Z) (h : list Z) (j : nat) :
  occurs_at n (x :: h) (S j) <-> occurs_at n h j.
Proof.
  split.
  - intros (pre & post & H & Hl). destruct pre as [| y pre]; [discriminate |].
    cbn [app] in H. injection H as -> ->. exists pre, post. split; [done |].
    simpl in Hl. lia.
  - intros (pre & post & -> & Hl). exists (x :: pre), post. split; [done |].
    simpl. lia.
Qed.

Lemma occurs_at_drop (n h : list Z) (off k : nat) :
  (off <= length h)%nat ->
  occurs_at n (drop off h) k <-> occurs_at n h (off + k).
Proof.
  revert h. induction off as [| off IH]; intros h Hoff.
  - by rewrite drop_0.
  - destruct h as [| x h]; [simpl in Hoff; lia |]. cbn [drop Nat.add].
    rewrite occurs_at_cons. apply IH. simpl in Hoff. lia.
Qed.

Lemma occurs_at_bound (n h : list Z) (j : nat) :
  n <> [] -> occurs_at n h j -> (j < length h)%nat.
Proof.
  intros Hn (pre & post & -> & <-). rewrite !length_app.
  destruct n; [done |]. simpl. lia.
Qed.

(** [strstr] finds the first occurrence. *)
Lemma strstr_from_spec (n : list Z) :
  forall h : list Z,
    match strstr_from n h with
    | Some i => occurs_at n h i /\ forall j : nat, (j < i)%nat -> ~ occurs_at n h j
    | None => forall j : nat, ~ occurs_at n h j
    end.
Proof.
  induction h as [| x h IH]; cbn [strstr_from].
  - destruct (prefix_at n []) eqn:Hp.
    + split; [by apply prefix_at_spec | lia].
    + intros j (pre & post & H & Hl).
      assert (Hpre : pre = []) by (by destruct pre).
      subst pre. cbn [length] in Hl. subst j.
      assert (Ht : prefix_at n [] = true) by (apply prefix_at_spec; by exists [], post).
      congruence.
  - destruct (prefix_at n (x :: h)) eqn:Hp.
    + split; [by apply prefix_at_spec | lia].
    + assert (Hz : ~ occurs_at n (x :: h) 0).
      { intros H. apply prefix_at_spec in H. congruence. }
      destruct (strstr_from n h) as [i |]; cbn [fmap option_fmap option_map].
      * destruct IH as [Hocc Hmin]. split; [by apply occurs_at_cons |].
        intros [| j] Hj; [done |]. rewrite occurs_at_cons. apply Hmin. lia.
      * intros [| j]; [done |]. rewrite occurs_at_cons. apply IH.
Qed.

(** The loop keeps in [last_match] the last occurrence before [p] and
    ends with the last occurrence of all. *)
Lemma laststrstr_loop_spec (h needle : list Z) (fuel : nat) :
  forall (off : nat) (last_match : option nat),
    cstring needle <> [] ->
    (off <= length (cstring h))%nat ->
    (length (cstring h) - off < fuel)%nat ->
    last_below (cstring needle) (cstring h) off last_match ->
    last_below (cstring needle) (cstring h) (S (length (cstring h)))
               (laststrstr_loop fuel (advance off h) off needle last_match).
Proof.
  induction fuel as [| fuel IH]; intros off last_match Hn Hoff Hfuel Hlast; [lia |].
  cbn [laststrstr_loop]. unfold strstr, advance.
  rewrite cstring_drop by done.
  pose proof (strstr_from_spec (cstring needle) (drop off (cstring h))) as Hfirst.
  destruct (strstr_from (cstring needle) (drop off (cstring h))) as [k |].
  - destruct Hfirst as [Hocc Hmin].
    pose proof (occurs_at_bound _ _ _ Hn Hocc) as Hk. rewrite length_drop in Hk.
    apply occurs_at_drop in Hocc; [| done].
    rewrite drop_drop.
    replace (off + S k)%nat with (off + k + 1)%nat by lia.
    apply IH; [done | lia | lia |].
    split; [lia |]. split; [done |].
    intros j Hj Hoccj.
    destruct (Nat.le_gt_cases j (off + k)) as [| Hgt]; [done | lia].
  - destruct last_match as [l |]; cbn [last_below] in *.
    + destruct Hlast as (Hl & Hoccl & Hmax). split; [lia |]. split; [done |].
      intros j Hj Hoccj. destruct (Nat.lt_ge_cases j off) as [Hlt | Hge]; [by apply Hmax |].
      exfalso. apply (Hfirst (j - off)%nat). apply occurs_at_drop; [done |].
      by replace (off + (j - off))%nat with j by lia.
    + intros j Hj Hoccj. destruct (Nat.lt_ge_cases j off) as [Hlt | Hge].
      * by apply (Hlast j).
      * apply (Hfirst (j - off)%nat). apply occurs_at_drop; [done |].
        by replace (off + (j - off))%nat with j by lia.
Qed.

(** [laststrstr] returns the null pointer for a null argument and the
    end of the haystack for an empty needle.  For any other needle it
    returns the last offset at which the needle occurs in the haystack,
    overlapping occurrences included, and the null pointer when it
    occurs nowhere. *)
Theorem laststrstr_last (h n : list Z) :
  laststrstr None (Some n) = None /\
  laststrstr (Some h) None = None /\
  (cstring n = [] -> laststrstr (Some h) (Some n) = Some (length (cstring h))) /\
  (cstring n <> [] ->
   match laststrstr (Some h) (Some n) with
   | None => forall j : nat, ~ occurs_at (cstring n) (cstring h) j
   | Some l =>
       occurs_at (cstring n) (cstring h) l /\
       forall j : nat, occurs_at (cstring n) (cstring h) j -> (j <= l)%nat
   end).
Proof.
  split; [reflexivity |]. split; [reflexivity |]. split.
  - intros Hn. unfold laststrstr, strlen. cbn [no_src src_string orb].
    rewrite Hn. cbn [length]. change (Z.of_nat 0 =? 0) with true. cbv iota.
    by rewrite Nat2Z.id.
  - intros Hn. unfold laststrstr, strlen. cbn [no_src src_string orb].
    destruct (Z.eqb_spec (Z.of_nat (length (cstring n))) 0) as [H0 | _].
    { destruct (cstring n); [done | simpl in H0; lia]. }
    assert (Hle : (length (cstring h) <= length h)%nat).
    { clear. induction h as [| c h IH]; [done |]. simpl.
      destruct (c =? 0); simpl; lia. }
    pose proof (laststrstr_loop_spec h n (S (length h)) 0 None Hn) as Hloop.
    unfold advance in Hloop. rewrite drop_0 in Hloop.
    specialize (Hloop ltac:(lia) ltac:(lia)).
    assert (Hinit : last_below (cstring n) (cstring h) 0 None) by (intros j Hj; lia).
    specialize (Hloop Hinit).
    destruct (laststrstr_loop (S (length h)) h 0 n None) as [l |]; cbn [last_below] in Hloop.
    + destruct Hloop as (_ & Hocc & Hmax). split; [done |].
      intros j Hj. apply Hmax; [| done].
      pose proof (occurs_at_bound _ _ _ Hn Hj). lia.
    + intros j Hj. apply (Hloop j); [| done].
      pose proof (occurs_at_bound _ _ _ Hn Hj). lia.
Qed.

Lemma laststrstr_last_witness :
  laststrstr (Some [97; 97; 97]) (Some [97; 97]) = Some 1%nat /\
  occurs_at [97; 97] [97; 97; 97] 1.
Proof.
  destruct (laststrstr_last [97; 97; 97] [97; 97]) as (_ & _ & _ & H).
  specialize (H ltac:(discriminate)).
  change (laststrstr (Some [97; 97; 97]) (Some [97; 97])) with (Some 1%nat) in H.
  split; [reflexivity | exact (proj1 H)].
Defined.

End Laststrstr.

(** ** [decatoi]: failure is atomic *)

Section DecatoiAtomic.
Import Int Libc Aiutils.

(** [decatoi] returns 0 or 1, whatever the bytes; when it returns 0,
    [*value] holds what it held on entry, and every slice longer than 20
    bytes is refused. *)
Theorem decatoi_failure_atomic (string : list Z) (length : Z) (v0 : Z) :
  (fst (decatoi string length v0) = 0 \/ fst (decatoi string length v0) = 1) /\
  (fst (decatoi string length v0) = 0 -> snd (decatoi string length v0) = v0) /\
  (20 < length -> decatoi string length v0 = (0, v0)).
Proof.
  unfold decatoi.
  destruct (Z.ltb_spec 20 length) as [Hlong | Hshort].
  { cbn [fst snd]. repeat split; auto. }
  destruct (strtoll (strncpy_bytes string (Z.to_nat (to_int length)) ++ [0]))
    as [[result eptr] errno].
  destruct ((errno =? EINVAL) || (errno =? ERANGE));
    [cbn [fst snd]; repeat split; auto; lia |].
  destruct (negb (to_int (Z.of_nat eptr) =? to_int length));
    [cbn [fst snd]; repeat split; auto; lia |].
  destruct (negb (nth eptr (strncpy_bytes string (Z.to_nat (to_int length)) ++ [0]) 0 =? 0));
    cbn [fst snd]; repeat split; auto; try lia; discriminate.
Qed.

Lemma decatoi_failure_atomic_witness :
  fst (decatoi [49; 50; 120] 3 7) = 0 /\ snd (decatoi [49; 50; 120] 3 7) = 7.
Proof.
  split; [reflexivity |].
  apply (proj1 (proj2 (decatoi_failure_atomic [49; 50; 120] 3 7))). reflexivity.
Defined.

End DecatoiAtomic.

(** ** [decatoi]: what is accepted *)

Section DecatoiAccepts.
Import Int Libc Aiutils Spec.

Lemma span_space_spec (l : list Z) :
  (span_space l <= length l)%nat /\
  Forall (fun c => isspace c = true) (take (span_space l) l).
Proof.
  induction l as [| c l [IHle IHall]]; [split; [done | constructor] |].
  cbn [span_space]. destruct (isspace c) eqn:Hc.
  - cbn [length take]. split; [lia | by constructor].
  - split; [simpl; lia | constructor].
Qed.

Lemma span_sign_spec (l : list Z) :
  (span_sign l = (false, O)) \/
  (span_sign l = (false, 1%nat) /\ take 1 l = [43]) \/
  (span_sign l = (true, 1%nat) /\ take 1 l = [45]).
Proof.
  destruct l as [| c l]; [by left |]. cbn [span_sign].
  destruct (Z.eqb_spec c 45) as [-> | H45]; [right; right; by split |].
  destruct (Z.eqb_spec c 43) as [-> | H43]; [right; left; by split | by left].
Qed.

Lemma span_digits_spec (l : list Z) :
  forall (acc v : Z) (k : nat),
    span_digits l acc = (v, k) ->
    (k <= length l)%nat /\
    Forall (fun c => isdigit c = true) (take k l) /\
    v = fold_left (fun a d => a * 10 + d) (map (fun c => c - 48) (take k l)) acc.
Proof.
  induction l as [| c l IH]; intros acc v k H.
  - cbn [span_digits] in H. injection H as <- <-. repeat split; [done | constructor].
  - cbn [span_digits] in H. destruct (isdigit c) eqn:Hc.
    + destruct (span_digits l (acc * 10 + (c - 48))) as [v' k'] eqn:Hrec.
      injection H as <- <-. destruct (IH _ _ _ Hrec) as (Hle & Hall & Hv).
      cbn [length take map fold_left]. repeat split; [lia | by constructor | done].
    + injection H as <- <-. repeat split; [simpl; lia | constructor].
Qed.

Lemma length_strncpy_bytes (n : nat) : forall s : list Z, length (strncpy_bytes s n) = n.
Proof.
  induction n as [| n IH]; intros s; [reflexivity |].
  cbn [strncpy_bytes]. destruct s as [| c s]; [by rewrite length_replicate |].
  destruct (c =? 0); [by rewrite length_replicate |]. cbn [length]. by rewrite IH.
Qed.

(** When [strncpy] wrote no zero byte, it copied [n] bytes of the
    source as they are. *)
Lemma strncpy_bytes_nonzero (n : nat) :
  forall s : list Z,
    Forall (fun c => c <> 0) (strncpy_bytes s n) -> strncpy_bytes s n = take n s.
Proof.
  induction n as [| n IH]; intros s H; [reflexivity |].
  cbn [strncpy_bytes] in *. destruct s as [| c s].
  - apply Forall_cons in H as [H _]. done.
  - destruct (Z.eqb_spec c 0).
    + cbn [replicate] in H. apply Forall_cons in H as [H _]. done.
    + apply Forall_cons in H as [_ H]. cbn [take]. by rewrite IH.
Qed.

Lemma to_int_inj_small (a c : Z) :
  0 <= a < 2 ^ 31 -> 0 <= c < 2 ^ 31 -> to_int a = to_int c -> a = c.
Proof. intros Ha Hc. rewrite !to_int_small by done. done. Qed.

(** Whenever [decatoi] returns 1, the slice is empty (and the value 0)
    or it is white space, then an optional sign, then at least one digit
    and nothing else, and the value stored is the signed decimal value
    of the digits, within 64 bits. *)
Theorem decatoi_accepts (s : list Z) (len x v0 : Z) :
  0 <= len ->
  decatoi s len v0 = (1, x) ->
  (len = 0 /\ x = 0) \/
  exists ws sg dg : list Z,
    take (Z.to_nat len) s = ws ++ sg ++ dg /\
    length (take (Z.to_nat len) s) = Z.to_nat len /\
    Forall (fun c => isspace c = true) ws /\
    (sg = [] \/ sg = [43] \/ sg = [45]) /\
    dg <> [] /\ Forall (fun c => isdigit c = true) dg /\
    x = (if hd 0 sg =? 45
         then - digits_value (map (fun c => c - 48) dg)
         else digits_value (map (fun c => c - 48) dg)) /\
    llong_min <= x <= llong_max.
Proof.
  intros Hlen H. unfold decatoi in H.
  destruct (Z.ltb_spec 20 len) as [| Hle]; [discriminate |].
  rewrite to_int_small in H by lia.
  set (n := Z.to_nat len) in *.
  set (B := strncpy_bytes s n) in *.
  assert (HB : length B = n) by apply length_strncpy_bytes.
  set (l := B ++ [0]) in *.
  assert (Hl : length l = S n) by (unfold l; rewrite length_app; simpl; lia).
  unfold strtoll in H.
  destruct (span_space_spec l) as [Hwsle Hws].
  set (a := span_space l) in *.
  pose proof (span_sign_spec (drop a l)) as Hsign.
  destruct (span_sign (drop a l)) as [neg sgn] eqn:Esign.
  destruct (span_digits (drop (a + sgn) l) 0) as [v k] eqn:Edig.
  destruct (span_digits_spec _ _ _ _ Edig) as (Hkle & Hdig & Hv).
  destruct k as [| k'].
  - (* nothing converted *)
    change ((0 =? EINVAL) || (0 =? ERANGE)) with false in H. cbv iota in H.
    change (Z.of_nat 0) with 0 in H. rewrite (to_int_small 0) in H by lia.
    destruct (Z.eqb_spec 0 len) as [<- | ]; [| discriminate]. cbn [negb] in H.
    destruct (negb (nth 0 l 0 =? 0)); [discriminate |].
    injection H as <-. by left.
  - right. set (k := S k') in *.
    set (r := if neg then - v else v) in *.
    set (e := (a + sgn + k)%nat) in *.
    assert (Hsgn : (sgn <= 1)%nat).
    { destruct Hsign as [Hs | [[Hs _] | [Hs _]]]; injection Hs as _ <-; lia. }
    assert (He : (e <= length l)%nat).
    { rewrite length_drop in Hkle. unfold e. lia. }
    destruct (Z.ltb_spec llong_max r) as [| Hmax].
    { change ((ERANGE =? EINVAL) || (ERANGE =? ERANGE)) with true in H. discriminate. }
    destruct (Z.ltb_spec r llong_min) as [| Hmin].
    { change ((ERANGE =? EINVAL) || (ERANGE =? ERANGE)) with true in H. discriminate. }
    change ((0 =? EINVAL) || (0 =? ERANGE)) with false in H. cbv iota in H.
    rewrite (to_int_small (Z.of_nat e)) in H by lia.
    destruct (Z.eqb_spec (Z.of_nat e) len) as [Helen | ]; [| discriminate].
    cbn [negb] in H.
    destruct (negb (nth e l 0 =? 0)); [discriminate |].
    injection H as <-.
    assert (Hen : e = n) by (unfold n; lia).
    (* the first [e] bytes of [l] are the three runs *)
    set (ws := take a l). set (l1 := drop a l) in *.
    set (sg := take sgn l1). set (dg := take k (drop (a + sgn) l)) in *.
    assert (Htake : take e l = ws ++ sg ++ dg).
    { unfold e, ws, sg, dg, l1.
      rewrite <- (take_drop a l) at 1.
      rewrite <- Nat.add_assoc.
      rewrite take_app_add' by (rewrite length_take; lia).
      f_equal. rewrite <- (take_drop sgn (drop a l)) at 1.
      rewrite take_app_add' by (rewrite length_take, length_drop; lia).
      f_equal. by rewrite drop_drop. }
    assert (HBe : take e l = B).
    { unfold l. rewrite Hen, <- HB. by rewrite take_app_length. }
    assert (Hsg : (sg = [] \/ sg = [43] \/ sg = [45]) /\ neg = (hd 0 sg =? 45)).
    { unfold sg.
      destruct Hsign as [Hs | [[Hs Ht] | [Hs Ht]]]; injection Hs as Hn Hs0; rewrite Hn, Hs0.
      - rewrite take_0. split; [by left | reflexivity].
      - rewrite Ht. split; [by right; left | reflexivity].
      - rewrite Ht. split; [by right; right | reflexivity]. }
    destruct Hsg as [Hsg Hneg].
    assert (Hnz : Forall (fun c => c <> 0) B).
    { rewrite <- HBe, Htake. rewrite !Forall_app. split; [| split].
      - eapply Forall_impl; [exact Hws |]. intros c Hc Hz. subst c. discriminate.
      - destruct Hsg as [-> | [-> | ->]]; [constructor | |]; (constructor; [lia | constructor]).
      - eapply Forall_impl; [exact Hdig |]. intros c Hc Hz. subst c. discriminate. }
    exists ws, sg, dg.
    rewrite <- (strncpy_bytes_nonzero n s Hnz). fold B.
    split; [by rewrite <- HBe |]. split; [done |]. split; [done |]. split; [done |].
    split.
    { unfold dg. intros Hnil. apply (f_equal length) in Hnil.
      rewrite length_take in Hnil. cbn [length] in Hnil. unfold k in *. lia. }
    split; [done |]. split; [| lia].
    unfold r. rewrite Hneg, Hv. reflexivity.
Qed.

Lemma decatoi_accepts_witness :
  exists ws sg dg : list Z,
    take (Z.to_nat 4) [32; 45; 49; 50] = ws ++ sg ++ dg /\
    Forall (fun c => isspace c = true) ws /\
    (sg = [] \/ sg = [43] \/ sg = [45]) /\
    dg <> [] /\ Forall (fun c => isdigit c = true) dg /\
    -12 = (if hd 0 sg =? 45
           then - digits_value (map (fun c => c - 48) dg)
           else digits_value (map (fun c => c - 48) dg)).
Proof.
  destruct (decatoi_accepts [32; 45; 49; 50] 4 (-12) 0 ltac:(lia) eq_refl)
    as [[H _] | (ws & sg & dg & H1 & _ & H2 & H3 & H4 & H5 & H6 & _)]; [discriminate |].
  exists ws, sg, dg. repeat split; assumption.
Defined.

End DecatoiAccepts.

(** ** [strcasestr]: the first occurrence regardless of case *)

Section Strcasestr.
Import Int Libc Aiutils Spec.

Example strcasestr_hello_world :
  strcasestr (Some [72; 101; 108; 108; 111; 32; 87; 111; 114; 108; 100])
             (Some [87; 79; 82; 76; 68]) = Some 6%nat.
Proof. reflexivity. Qed.

Lemma occurs_at_length (n h : list Z) (j : nat) :
  occurs_at n h j -> (j + length n <= length h)%nat.
Proof. intros (pre & post & -> & <-). rewrite !length_app. lia. Qed.

(** The inner loop over the [todo] bytes of the needle. *)
Lemma strcasestr_inner_spec (todo : nat) :
  forall h n : list Z,
    length (cstring n) = todo ->
    match strcasestr_inner todo h n with
    | Matched => occurs_at (map fold_upper (cstring n)) (map fold_upper (cstring h)) 0
    | Mismatch => ~ occurs_at (map fold_upper (cstring n)) (map fold_upper (cstring h)) 0
    | HaystackEnd => (length (cstring h) < length (cstring n))%nat
    end.
Proof.
  induction todo as [| todo IH]; intros h n Hn.
  - cbn [strcasestr_inner]. apply length_zero_iff_nil in Hn. rewrite Hn.
    by exists [], (map fold_upper (cstring h)).
  - destruct n as [| x n]; [discriminate |].
    destruct (Z.eq_dec x 0) as [-> | Hx]; [discriminate |].
    rewrite cstring_cons in * by done. cbn [length] in Hn.
    cbn [strcasestr_inner peek hd advance].
    destruct h as [| c h].
    + change (peek []) with 0. change (0 =? 0) with true. cbv iota. simpl. lia.
    + change (peek (c :: h)) with c. change (peek (x :: n)) with x.
      change (advance 1 (c :: h)) with h. change (advance 1 (x :: n)) with n.
      destruct (Z.eqb_spec c 0) as [-> | Hc]; [simpl; lia |].
      rewrite cstring_cons by done. cbn [map].
      destruct (Z.eqb_spec (toupper (to_uchar c)) (toupper (to_uchar x))) as [Heq | Hne];
        cbn [negb].
      * specialize (IH h n ltac:(lia)).
        destruct (strcasestr_inner todo h n); cbv beta iota in IH |- *.
        -- unfold occurs_at in IH.
           destruct IH as (pre & post & Hpost & Hl). destruct pre; [| discriminate].
           exists [], post. cbn [app] in *. split; [| done].
           unfold fold_upper at 1 3. by rewrite Heq, Hpost.
        -- intros (pre & post & Hpost & Hl). destruct pre; [| discriminate].
           cbn [app] in Hpost. injection Hpost as _ Hpost. apply IH.
           by exists [], post.
        -- cbn [length]. lia.
      * intros (pre & post & Hpost & Hl). destruct pre; [| discriminate].
        cbn [app] in Hpost. injection Hpost as Hhead _. by apply Hne.
Qed.

Lemma strcasestr_loop_spec (needle : list Z) (h : list Z) :
  forall off : nat,
    cstring needle <> [] ->
    match strcasestr_loop h off needle (length (cstring needle)) with
    | Some r =>
        exists i : nat,
          r = (off + i)%nat /\
          occurs_at (map fold_upper (cstring needle)) (map fold_upper (cstring h)) i /\
          forall j : nat, (j < i)%nat ->
            ~ occurs_at (map fold_upper (cstring needle)) (map fold_upper (cstring h)) j
    | None =>
        forall j : nat,
          ~ occurs_at (map fold_upper (cstring needle)) (map fold_upper (cstring h)) j
    end.
Proof.
  induction h as [| c h IH]; intros off Hn.
  - cbn [strcasestr_loop cstring map]. intros j Hj.
    apply occurs_at_length in Hj. rewrite length_map in Hj. cbn [length] in Hj.
    destruct (cstring needle); [done | simpl in Hj; lia].
  - cbn [strcasestr_loop].
    destruct (Z.eqb_spec c 0) as [-> | Hc].
    { cbn [cstring map]. intros j Hj.
      apply occurs_at_length in Hj. rewrite length_map in Hj. cbn [length] in Hj.
      destruct (cstring needle); [done | simpl in Hj; lia]. }
    assert (Hrec :
      ~ occurs_at (map fold_upper (cstring needle)) (map fold_upper (cstring (c :: h))) 0 ->
      match strcasestr_loop h (S off) needle (length (cstring needle)) with
      | Some r =>
          exists i : nat,
            r = (off + i)%nat /\
            occurs_at (map fold_upper (cstring needle)) (map fold_upper (cstring (c :: h))) i /\
            forall j : nat, (j < i)%nat ->
              ~ occurs_at (map fold_upper (cstring needle))
                          (map fold_upper (cstring (c :: h))) j
      | None =>
          forall j : nat,
            ~ occurs_at (map fold_upper (cstring needle))
                        (map fold_upper (cstring (c :: h))) j
      end).
    { intros Hz. specialize (IH (S off) Hn). rewrite (cstring_cons c h) by done. cbn [map].
      rewrite (cstring_cons c h) in Hz by done. cbn [map] in Hz.
      destruct (strcasestr_loop h (S off) needle (length (cstring needle))) as [r |].
      - destruct IH as (i & -> & Hocc & Hmin). exists (S i). split; [lia |].
        split; [by apply occurs_at_cons |].
        intros [| j] Hj; [done |]. rewrite occurs_at_cons. apply Hmin. lia.
      - intros [| j]; [done |]. rewrite occurs_at_cons. apply IH. }
    pose proof (strcasestr_inner_spec (length (cstring needle)) (c :: h) needle eq_refl)
      as Hinner.
    destruct (Z.eqb_spec (toupper (to_uchar c)) (toupper (to_uchar (peek needle))))
      as [Hfirst | Hfirst].
    + destruct (strcasestr_inner (length (cstring needle)) (c :: h) needle);
        cbv beta iota in Hinner |- *.
      * exists O. split; [lia |]. split; [done | lia].
      * by apply Hrec.
      * intros j Hj. apply occurs_at_length in Hj. rewrite !length_map in Hj. lia.
    + apply Hrec. intros (pre & post & Hpost & Hl). destruct pre; [| discriminate].
      rewrite (cstring_cons c h) in Hpost by done. cbn [app map] in Hpost.
      destruct needle as [| x needle]; [done |].
      destruct (Z.eq_dec x 0) as [-> | Hx]; [done |].
      rewrite (cstring_cons x needle) in Hpost by done. cbn [map app] in Hpost.
      injection Hpost as Hhead _. by apply Hfirst.
Qed.

(** [strcasestr] returns the null pointer for a null argument and the
    haystack itself for an empty needle.  For any other needle it
    returns the first offset at which the needle occurs in the haystack
    after case folding, and the null pointer exactly when it occurs
    nowhere: giving up when the haystack ends inside a comparison loses
    no match. *)
Theorem strcasestr_first (h n : list Z) :
  strcasestr None (Some n) = None /\
  strcasestr (Some h) None = None /\
  (cstring n = [] -> strcasestr (Some h) (Some n) = Some O) /\
  (cstring n <> [] ->
   match strcasestr (Some h) (Some n) with
   | Some i =>
       occurs_at (map fold_upper (cstring n)) (map fold_upper (cstring h)) i /\
       forall j : nat, (j < i)%nat ->
         ~ occurs_at (map fold_upper (cstring n)) (map fold_upper (cstring h)) j
   | None =>
       forall j : nat, ~ occurs_at (map fold_upper (cstring n)) (map fold_upper (cstring h)) j
   end).
Proof.
  split; [reflexivity |]. split; [reflexivity |].
  assert (Hpeek : (peek n =? 0) = true <-> cstring n = []).
  { destruct n as [| x n]; [done |]. cbn [peek hd cstring].
    destruct (Z.eqb_spec x 0); split; done. }
  split.
  - intros Hn. unfold strcasestr. cbn [no_src src_string orb].
    by rewrite (proj2 Hpeek Hn).
  - intros Hn. unfold strcasestr, strlen. cbn [no_src src_string orb].
    destruct (peek n =? 0); [exfalso; apply Hn; by apply Hpeek |].
    rewrite Nat2Z.id.
    pose proof (strcasestr_loop_spec n h 0 Hn) as Hloop.
    destruct (strcasestr_loop h 0 n (length (cstring n))) as [r |]; [| done].
    destruct Hloop as (i & -> & Hocc & Hmin). by rewrite Nat.add_0_l.
Qed.

Lemma strcasestr_first_witness :
  strcasestr (Some [97; 98; 65; 66; 99]) (Some [65; 98; 67]) = Some 2%nat /\
  occurs_at (map fold_upper [65; 98; 67]) (map fold_upper [97; 98; 65; 66; 99]) 2.
Proof.
  destruct (strcasestr_first [97; 98; 65; 66; 99] [65; 98; 67]) as (_ & _ & _ & H).
  specialize (H ltac:(discriminate)).
  change (strcasestr (Some [97; 98; 65; 66; 99]) (Some [65; 98; 67]))
    with (Some 2%nat) in H.
  split; [reflexivity | exact (proj1 H)].
Defined.

End Strcasestr.
